(** * Member synchronisation bot: the reconciler and its execution log

    A shallow embedding of [main.py]: the routine [sync_members], which
    mirrors the member list of one guild into a spreadsheet, and
    [write_log], which keeps a bounded JSON journal on disk.

    The program talks to three external collaborators (the guild cache of
    the chat client, the spreadsheet API and the file system) and reads
    the wall clock.  They are gathered in one record, [World], and the
    program is written in a state-and-exception monad over it, statement
    for statement. *)

From Stdlib Require Import ZArith List Ascii String Lia.
From stdpp Require Import base tactics option list numbers strings pretty gmap sets.

#[local] Set Warnings "-register-all,-clear-no-such-hyp".
Local Open Scope string_scope.
Local Open Scope list_scope.
Local Open Scope Z_scope.

(** ** Data model *)

(** A chat-server member as the program reads it: [member.display_name],
    [member.name], [member.id] and [member.display_avatar.url]. *)
Record Member := {
  display_name : string;
  name : string;
  member_id : Z;
  display_avatar_url : string
}.

(** The guild returned by [bot.get_guild]. *)
Record Guild := {
  guild_name : string;
  guild_id : Z;
  members : list Member
}.

(** A spreadsheet row is the list of its cell values; the worksheet is the
    list of its rows, top to bottom. *)
Definition Row := list string.

(** A [datetime] value. *)
Record DateTime := {
  year : nat;
  month : nat;
  day : nat;
  hour : nat;
  minute : nat;
  second : nat
}.

(** JSON values as Python's [json] module decodes them. A float is kept
    as its lexeme. *)
Inductive json :=
  | JNull
  | JBool (b : bool)
  | JInt (z : Z)
  | JFloat (lexeme : string)
  | JStr (s : string)
  | JList (l : list json)
  | JDict (kv : list (string * json)).

(** What the log file holds. The text of a well-formed file is
    represented by the value it decodes to; [Garbage] is any text that
    [json.load] rejects; [Torn] is a file that [open(..., "w")] has
    truncated and whose dump did not complete (a strict prefix of the
    serialisation of an array, which is never valid JSON). *)
Inductive file_content :=
  | Json (v : json)
  | Garbage (text : string)
  | Torn.

(** The exceptions (all subclasses of [Exception]) the modelled
    operations raise, with the message [str(exc)] gives. For a failure
    that the environment decides (a fallible call) the message is a label
    of the call that failed, the real text being that of the operating
    system or of the API: statements about the console quantify over
    it. *)
Inductive exn :=
  | APIError (msg : string)
  | OSError (msg : string)
  | JSONDecodeError (msg : string)
  | AttributeError (msg : string).

Definition exn_str (e : exn) : string :=
  match e with
  | APIError m | OSError m | JSONDecodeError m | AttributeError m => m
  end.

(** ** The world

    - [guild]: what [bot.get_guild(GUILD_ID)] answers;
    - [sheet]: the worksheet;
    - [log_file]: the file at [LOG_FILE], [None] when it does not exist;
    - [console]: standard output, oldest line first;
    - [clock], [reads]: [datetime.utcnow()] answers [clock reads] and
      advances [reads], so no assumption is made on how time passes;
    - [slept]: the seconds spent in [asyncio.sleep];
    - [faults]: the fate of the coming fallible external calls, in call
      order, [true] for a call that raises; past the end of the script
      every call succeeds. *)
Record World := {
  guild : option Guild;
  sheet : list Row;
  log_file : option file_content;
  console : list string;
  clock : nat → DateTime;
  reads : nat;
  slept : nat;
  faults : list bool
}.

Definition set_sheet (s : list Row) (w : World) : World :=
  {| guild := guild w; sheet := s; log_file := log_file w;
     console := console w; clock := clock w; reads := reads w;
     slept := slept w; faults := faults w |}.

Definition set_log_file (f : option file_content) (w : World) : World :=
  {| guild := guild w; sheet := sheet w; log_file := f;
     console := console w; clock := clock w; reads := reads w;
     slept := slept w; faults := faults w |}.

Definition set_console (c : list string) (w : World) : World :=
  {| guild := guild w; sheet := sheet w; log_file := log_file w;
     console := c; clock := clock w; reads := reads w;
     slept := slept w; faults := faults w |}.

Definition set_reads (n : nat) (w : World) : World :=
  {| guild := guild w; sheet := sheet w; log_file := log_file w;
     console := console w; clock := clock w; reads := n;
     slept := slept w; faults := faults w |}.

Definition set_slept (n : nat) (w : World) : World :=
  {| guild := guild w; sheet := sheet w; log_file := log_file w;
     console := console w; clock := clock w; reads := reads w;
     slept := n; faults := faults w |}.

Definition set_faults (fs : list bool) (w : World) : World :=
  {| guild := guild w; sheet := sheet w; log_file := log_file w;
     console := console w; clock := clock w; reads := reads w;
     slept := slept w; faults := fs |}.

(** ** The monad: state passing with exceptions

    A raised exception keeps the world reached so far: what was written
    before the failure stays written. *)
Inductive result (A : Type) :=
  | Ok (a : A)
  | Raise (e : exn).
Arguments Ok {A} a.
Arguments Raise {A} e.

Definition M (A : Type) : Type := World → result A * World.

Definition ret {A} (a : A) : M A := λ w, (Ok a, w).

Definition bind {A B} (c : M A) (k : A → M B) : M B :=
  λ w, match c w with
       | (Ok a, w') => k a w'
       | (Raise e, w') => (Raise e, w')
       end.

Definition raise {A} (e : exn) : M A := λ w, (Raise e, w).

(** [try: body except Exception as exc: handler exc] *)
Definition try_except {A} (body : M A) (handler : exn → M A) : M A :=
  λ w, match body w with
       | (Ok a, w') => (Ok a, w')
       | (Raise e, w') => handler e w'
       end.

Notation "x <- c ;; k" := (bind c (λ x, k))
  (at level 100, c at next level, right associativity).
Notation "c ;; k" := (bind c (λ _, k))
  (at level 100, right associativity).

(** ** External operations *)

(** A call that the environment may fail with [e]. *)
Definition fallible (e : exn) : M unit :=
  λ w, match faults w with
       | [] => (Ok tt, w)
       | false :: fs => (Ok tt, set_faults fs w)
       | true :: fs => (Raise e, set_faults fs w)
       end.

Definition print (line : string) : M unit :=
  λ w, (Ok tt, set_console (console w ++ [line]) w).

Definition utcnow : M DateTime :=
  λ w, (Ok (clock w (reads w)), set_reads (S (reads w)) w).

Definition sleep (seconds : nat) : M unit :=
  λ w, (Ok tt, set_slept (slept w + seconds)%nat w).

Definition get_guild : M (option Guild) :=
  λ w, (Ok (guild w), w).

(** The cells of column [n] (counted from 1), one per row, a short row
    giving the empty string. The API drops the blank cells at the end of
    the column; the program only tests membership of non-empty strings,
    which that does not change. *)
Definition column (n : nat) (rows : list Row) : list string :=
  map (λ r : Row, nth (n - 1) r "") rows.

Definition col_values (n : nat) : M (list string) :=
  fallible (APIError "col_values") ;;
  λ w, (Ok (column n (sheet w)), w).

Definition append_row (values : Row) : M unit :=
  fallible (APIError "append_row") ;;
  λ w, (Ok tt, set_sheet (sheet w ++ [values]) w).

(** [os.path.exists(LOG_FILE)] *)
Definition path_exists : M bool :=
  λ w, (Ok (bool_decide (is_Some (log_file w))), w).

(** [open(LOG_FILE, encoding="utf-8")] *)
Definition open_read : M unit :=
  fallible (OSError "open").

(** [json.load(fp)] *)
Definition json_load : M json :=
  λ w, match log_file w with
       | Some (Json v) => (Ok v, w)
       | Some _ => (Raise (JSONDecodeError "Expecting value"), w)
       | None => (Raise (OSError "No such file or directory"), w)
       end.

(** [open(LOG_FILE, "w", encoding="utf-8")]: truncates the file. *)
Definition open_write : M unit :=
  fallible (OSError "open") ;;
  λ w, (Ok tt, set_log_file (Some Torn) w).

(** [json.dump(v, fp, ensure_ascii=False, indent=2)] and the close of the
    [with] block. *)
Definition json_dump (v : json) : M unit :=
  fallible (OSError "write") ;;
  λ w, (Ok tt, set_log_file (Some (Json v)) w).

(** ** Pure helpers of the program *)

(** [str(n)] for a Python [int]. *)
Definition str (n : Z) : string := pretty n.

(** Two digits, zero padded: [%m], [%d], [%H], [%M], [%S]. *)
Definition pad2 (n : nat) : string :=
  if (n <? 10)%nat then "0" +:+ pretty n else pretty n.

(** [dt.strftime("%Y-%m-%d %H:%M:%S")] *)
Definition strftime (dt : DateTime) : string :=
  pretty (year dt) +:+ "-" +:+ pad2 (month dt) +:+ "-" +:+ pad2 (day dt)
  +:+ " " +:+ pad2 (hour dt) +:+ ":" +:+ pad2 (minute dt)
  +:+ ":" +:+ pad2 (second dt).

(** The name Python gives the type of a decoded JSON value. *)
Definition type_name (v : json) : string :=
  match v with
  | JNull => "NoneType"
  | JBool _ => "bool"
  | JInt _ => "int"
  | JFloat _ => "float"
  | JStr _ => "str"
  | JList _ => "list"
  | JDict _ => "dict"
  end.

(** [data.insert(0, entry)]: only a list has the method. *)
Definition insert_front (entry : json) (data : json) : M (list json) :=
  match data with
  | JList l => ret (entry :: l)
  | _ => raise (AttributeError
           ("'" +:+ type_name data +:+ "' object has no attribute 'insert'"))
  end.

(** The dictionary [write_log] builds. *)
Definition log_entry (timestamp status : string) (member_count : Z) : json :=
  JDict [("timestamp", JStr timestamp);
         ("status", JStr status);
         ("member_count", JInt member_count)].

(** The lines the program prints. *)
Definition not_found_line : string :=
  "[sync] Guild not found – check DISCORD_GUILD_ID".

Definition fetching_line (g : Guild) : string :=
  "[sync] fetching members from " +:+ guild_name g
  +:+ " (ID: " +:+ str (guild_id g) +:+ ")".

Definition complete_line (added : Z) : string :=
  "[sync] complete – " +:+ str added +:+ " new rows".

(** ** The program *)

Definition write_log (status : string) (member_count : Z) : M unit :=
  now <- utcnow ;;
  let entry := log_entry (strftime now) status member_count in
  try_except
    (found <- path_exists ;;
     data <- (if found : bool
              then open_read ;; json_load
              else ret (JList [])) ;;
     data <- insert_front entry data ;;
     open_write ;;
     json_dump (JList (take 100 data)))
    (λ exc, print ("[log] failed: " +:+ exn_str exc)).

(** The body of [for member in guild.members], with the two variables
    the loop updates. *)
Fixpoint sync_loop (ms : list Member) (existing_ids : gset string)
    (added : Z) : M Z :=
  match ms with
  | [] => ret added
  | member :: rest =>
      let uid := str (member_id member) in
      if bool_decide (uid ∈ existing_ids) then
        sync_loop rest existing_ids added
      else
        let avatar_url := display_avatar_url member in
        now <- utcnow ;;
        append_row [display_name member; name member; uid; avatar_url;
                    strftime now] ;;
        sleep 1 ;;
        sync_loop rest ({[uid]} ∪ existing_ids) (added + 1)
  end.

Definition sync_members : M unit :=
  g <- get_guild ;;
  match g with
  | None => print not_found_line
  | Some guild =>
      print (fetching_line guild) ;;
      cells <- col_values 3 ;;
      let existing_ids : gset string := list_to_set cells in
      added <- sync_loop (members guild) existing_ids 0 ;;
      print (complete_line added) ;;
      write_log "sync" added
  end.

(** A series of log-producing events: one call of [write_log] each. *)
Fixpoint log_events (evs : list (string * Z)) : M unit :=
  match evs with
  | [] => ret tt
  | (status, member_count) :: rest =>
      write_log status member_count ;; log_events rest
  end.

(** ** Specification functions

    Pure functions that say what a run does, against which the program is
    proved: which members it writes, which rows that gives, how far a
    fault script lets it go. *)

Definition uid_of (m : Member) : string := str (member_id m).

(** The identity cell of a row: column 3. *)
Definition identity (r : Row) : string := nth 2 r "".

(** The rows of a sheet that carry identity [uid]. *)
Definition rows_for (uid : string) (rows : list Row) : list Row :=
  filter (λ r, identity r = uid) rows.

(** The members the loop decides to write, given the identities it
    starts from: those not seen before, each identity once. *)
Fixpoint novel (ms : list Member) (seen : gset string) : list Member :=
  match ms with
  | [] => []
  | m :: rest =>
      if bool_decide (uid_of m ∈ seen) then novel rest seen
      else m :: novel rest ({[uid_of m]} ∪ seen)
  end.

(** The list [sync_members] hands to [append_row] for a member. *)
Definition member_row (m : Member) (timestamp : string) : Row :=
  [display_name m; name m; str (member_id m); display_avatar_url m; timestamp].

(** Their rows, stamped with successive readings of the clock. *)
Fixpoint stamped (clk : nat → DateTime) (n : nat) (ms : list Member)
    : list Row :=
  match ms with
  | [] => []
  | m :: rest => member_row m (strftime (clk n)) :: stamped clk (S n) rest
  end.

(** How many of [n] calls in a row succeed before the fault script makes
    one fail. *)
Fixpoint granted (n : nat) (fs : list bool) : nat :=
  match n, fs with
  | O, _ => O
  | S _, [] => n
  | S n', false :: fs' => S (granted n' fs')
  | S _, true :: _ => O
  end.

(** The world the loop leaves when it has made [k] appends and then
    either finished ([failed = false]) or seen the next append fail. *)
Definition after_appends (w : World) (nm : list Member) (k : nat)
    (failed : bool) : World :=
  let calls := if failed then S k else k in
  {| guild := guild w;
     sheet := sheet w ++ stamped (clock w) (reads w) (take k nm);
     log_file := log_file w;
     console := console w;
     clock := clock w;
     reads := (reads w + calls)%nat;
     slept := (slept w + k)%nat;
     faults := drop calls (faults w) |}.

(** The live roster: the members of the guild when it resolves. *)
Definition roster (w : World) : list Member :=
  match guild w with
  | Some g => members g
  | None => []
  end.

(** The identities the run starts from: column 3 of the sheet as it is
    when the run begins. *)
Definition known (w : World) : gset string :=
  list_to_set (column 3 (sheet w)).

(** The members a run that meets no failure writes. *)
Definition pending (w : World) : list Member := novel (roster w) (known w).

(** The number of appends the run makes. *)
Definition appends (w : World) : nat :=
  match guild w, faults w with
  | None, _ => O
  | Some _, true :: _ => O
  | Some _, fs => granted (length (pending w)) (tail fs)
  end.

(** The rows the run appends. *)
Definition new_rows (w : World) : list Row :=
  stamped (clock w) (reads w) (take (appends w) (pending w)).

(** The outcome of a run as a function of the guild, the sheet and the
    fault script. *)
Definition run_outcome (w : World) : result unit :=
  match guild w, faults w with
  | None, _ => Ok tt
  | Some _, true :: _ => Raise (APIError "col_values")
  | Some _, _ =>
      if decide (appends w = length (pending w)) then Ok tt
      else Raise (APIError "append_row")
  end.

(** The number of rows a complete run appends for an identity. *)
Definition due (w : World) (uid : string) : nat :=
  if bool_decide (uid ∈ column 3 (sheet w)) then O
  else if bool_decide (uid ∈ map uid_of (roster w)) then 1%nat else O.

(** The entry a call of [write_log] made in world [w] builds. *)
Definition entry_at (w : World) (status : string) (member_count : Z) : json :=
  log_entry (strftime (clock w (reads w))) status member_count.

(** The entry a finished run hands to the log: stamped with the reading
    of the clock that follows those of the rows, of kind "sync", counting
    the rows the run appended. *)
Definition sync_entry (w : World) : json :=
  log_entry (strftime (clock w (reads w + length (new_rows w))%nat))
    "sync" (Z.of_nat (length (new_rows w))).

(** The array a log file holds, an absent file counting as empty;
    [None] when the file does not hold an array. *)
Definition journal (f : option file_content) : option (list json) :=
  match f with
  | None => Some []
  | Some (Json (JList l)) => Some l
  | Some _ => None
  end.

(** Reading the existing file fails: the file is there and either cannot
    be opened or does not hold JSON. *)
Definition read_fails (w : World) : Prop :=
  match log_file w with
  | None => False
  | Some (Json _) => head (faults w) = Some true
  | Some (Garbage _) | Some Torn => True
  end.

(** The entries those calls build, oldest first, from clock reading [n]
    on. *)
Fixpoint entries_of (clk : nat → DateTime) (n : nat)
    (evs : list (string * Z)) : list json :=
  match evs with
  | [] => []
  | (status, member_count) :: rest =>
      log_entry (strftime (clk n)) status member_count
      :: entries_of clk (S n) rest
  end.

(** What Python's [datetime] guarantees of a value, with a year of four
    digits ([%Y] does not pad). *)
Definition valid_datetime (dt : DateTime) : Prop :=
  1000 ≤ Z.of_nat (year dt) ≤ 9999 ∧ (1 ≤ month dt ≤ 12)%nat ∧
  (1 ≤ day dt ≤ 31)%nat ∧ (hour dt < 24)%nat ∧ (minute dt < 60)%nat ∧
  (second dt < 60)%nat.

Definition is_digit (c : ascii) : bool :=
  (48 <=? nat_of_ascii c)%nat && (nat_of_ascii c <=? 57)%nat.

Definition is_char (c d : ascii) : bool := bool_decide (c = d).

(** The shape "YYYY-MM-DD HH:MM:SS". *)
Definition is_timestamp (s : string) : bool :=
  match list_ascii_of_string s with
  | [y1; y2; y3; y4; a; m1; m2; b; d1; d2; c; h1; h2; d; n1; n2; e; s1; s2] =>
      forallb is_digit [y1; y2; y3; y4; m1; m2; d1; d2; h1; h2; n1; n2; s1; s2]
      && is_char a "-" && is_char b "-" && is_char c " "
      && is_char d ":" && is_char e ":"
  | _ => false
  end.

(** ** Test worlds *)

(** A clock that ticks one second per reading (within one minute). *)
Definition ticking (n : nat) : DateTime :=
  {| year := 2024; month := 5; day := 7; hour := 9; minute := 3;
     second := n `mod` 60 |}.

Definition alice : Member :=
  {| display_name := "Alice"; name := "alice"; member_id := 1;
     display_avatar_url := "https://cdn.example/a.png" |}.
Definition bob : Member :=
  {| display_name := "Bob"; name := "bob"; member_id := 2;
     display_avatar_url := "https://cdn.example/b.png" |}.

Definition two_members : Guild :=
  {| guild_name := "Test"; guild_id := 77; members := [alice; bob] |}.

Definition twins : Guild :=
  {| guild_name := "Test"; guild_id := 77; members := [bob; alice; bob] |}.

Definition carol : Member :=
  {| display_name := "Carol"; name := "carol"; member_id := 42;
     display_avatar_url := "https://cdn.example/c.png" |}.

Definition world0 (g : option Guild) (rows : list Row)
    (f : option file_content) (fs : list bool) : World :=
  {| guild := g; sheet := rows; log_file := f; console := [];
     clock := ticking; reads := 0; slept := 0; faults := fs |}.

Definition sheet_B : list Row :=
  [ ["Alice"; "alice"; "1"; "https://cdn.example/a.png";
     "2024-05-06 18:00:00"] ].

(** Scenario B: identity "1" is in the sheet, the roster has 1 and 2. *)
Definition world_B : World := world0 (Some two_members) sheet_B None [].

(** Scenario C: the log holds one earlier entry, the guild is unknown. *)
Definition world_C : World :=
  world0 None sheet_B
    (Some (Json (JList [log_entry "2024-05-07 09:00:00" "starting" 0]))) [].

(** Column 3 holds four cells that read as 42 but are not "42". *)
Definition world_D : World :=
  world0
    (Some {| guild_name := "Test"; guild_id := 77; members := [carol] |})
    [ ["Carol"; "carol"; " 42"; "u"; "t"];
      ["Carol"; "carol"; "042"; "u"; "t"];
      ["Carol"; "carol"; "42.0"; "u"; "t"];
      ["Carol"; "carol"; "+42"; "u"; "t"] ]
    None [].

(** The first append succeeds, the second fails. *)
Definition world_F : World :=
  world0 (Some two_members) [] None [false; false; true; false].

(** A log file that holds invalid JSON. *)
Definition world_G : World :=
  world0 None [] (Some (Garbage "[{'timestamp': ")) [].

(** 101 events on a fresh log: ["e"] with counts 0 to 100. *)
Definition events_101 : list (string * Z) :=
  map (λ i : nat, ("e", Z.of_nat i)) (seq 0 101).

(** ** Proof tactics *)

(** Case analysis on everything [write_log] looks at: the content of the
    log file and the fate of its (at most three) fallible calls. *)
Ltac log_cases w :=
  let g := fresh "g" in let sh := fresh "sh" in let lf := fresh "lf" in
  let co := fresh "co" in let cl := fresh "cl" in let rd := fresh "rd" in
  let sl := fresh "sl" in let fs := fresh "fs" in
  destruct w as [g sh lf co cl rd sl fs];
  unfold write_log, try_except, bind, utcnow, path_exists, open_read,
    json_load, insert_front, open_write, json_dump, fallible, print,
    ret, raise;
  destruct lf as [[[]| |]|];
  (destruct fs as [|[] fs];
    [ | | destruct fs as [|[] fs];
          [ | | destruct fs as [|[] fs] ] ]);
  simpl.

(** Closes an equation between two outcomes field by field. *)
Ltac same_outcome :=
  unfold set_faults, set_reads, set_sheet, set_slept, set_console,
    set_log_file; simpl;
  repeat match goal with
    | |- (_, _) = (_, _) => f_equal
    | |- Ok _ = Ok _ => f_equal
    | |- Build_World _ _ _ _ _ _ _ _ = Build_World _ _ _ _ _ _ _ _ => f_equal
    end;
  try first [ done | lia
            | by rewrite <- ?app_assoc, ?app_nil_r, ?drop_nil, ?firstn_all ].

(** ** Event hooks and start-up *)

(** The [discord.Member] an [on_member_join] event carries, with the
    guild it joined ([member.guild]). *)
Record JoinEvent := {
  join_member : Member;
  join_guild : Guild
}.

Definition ready_line (user : string) : string :=
  "[ready] Logged in as " +:+ user.

(** [on_ready], for the account name [bot.user] prints as. *)
Definition on_ready (user : string) : M unit :=
  print (ready_line user) ;;
  sync_members.

(** [on_member_join], for the configured [GUILD_ID]. *)
Definition on_member_join (GUILD_ID : Z) (member : JoinEvent) : M unit :=
  if bool_decide (guild_id (join_guild member) = GUILD_ID)
  then sync_members
  else ret tt.

(** The first statement of the main block: [write_log("starting")], the
    count taking its default. *)
Definition log_starting : M unit := write_log "starting" 0.

(** ** Configuration

    The module reads its settings from the environment when it is
    loaded. [os.environ[key]] raises [KeyError] for a missing key,
    [os.getenv(key, default)] answers the default, and [int] raises
    [ValueError] on text that is not an integer. *)
Inductive config_error :=
  | KeyError (key : string)
  | ValueError (text : string).

Record Config := {
  TOKEN : string;
  GUILD_ID : Z;
  SPREADSHEET_ID : string;
  SHEET_NAME : string;
  LOG_FILE : string;
  json_b64 : string
}.

(** [os.environ[key]] *)
Definition environ_get (environ : gmap string string) (key : string)
    : config_error + string :=
  match environ !! key with
  | Some v => inr v
  | None => inl (KeyError key)
  end.

(** [os.getenv(key, default)] *)
Definition getenv (environ : gmap string string) (key default : string)
    : string :=
  match environ !! key with
  | Some v => v
  | None => default
  end.

Definition and_then {A B} (c : config_error + A)
    (k : A → config_error + B) : config_error + B :=
  match c with
  | inl e => inl e
  | inr a => k a
  end.

(** Lines 44 to 51 of the module, in order; [int] is Python's parser of
    integers, [None] where it raises. *)
Definition load_config (int : string → option Z)
    (environ : gmap string string) : config_error + Config :=
  and_then (environ_get environ "DISCORD_TOKEN") (λ token,
  and_then (environ_get environ "DISCORD_GUILD_ID") (λ raw,
  and_then (match int raw with
            | Some z => inr z
            | None => inl (ValueError raw)
            end) (λ gid,
  and_then (environ_get environ "SPREADSHEET_ID") (λ sid,
  let sheet_name := getenv environ "SHEET_NAME" "Discordリスト" in
  let log := getenv environ "LOG_FILE" "bot_execution_log.json" in
  and_then (environ_get environ "GOOGLE_CREDENTIALS_JSON") (λ b64,
  inr {| TOKEN := token; GUILD_ID := gid; SPREADSHEET_ID := sid;
         SHEET_NAME := sheet_name; LOG_FILE := log; json_b64 := b64 |}))))).


(** ** Further specification functions and test data *)

(** A sheet that already has both members. *)
Definition sheet_AB : list Row :=
  [ ["Alice"; "alice"; "1"; "a"; "t"]; ["Bob"; "bob"; "2"; "b"; "t"] ].

(** Bob joins the guild whose sheet holds Alice. *)
Definition bob_joins : JoinEvent :=
  {| join_member := bob; join_guild := two_members |}.

(** A log of 150 entries. *)
Definition long_log : list json :=
  map (λ i : nat, log_entry "2024-05-06 18:00:00" "sync" (Z.of_nat i))
    (seq 0 150).

(** A log file that exists and does not hold JSON. *)
Definition corrupt (f : option file_content) : Prop :=
  match f with
  | Some (Garbage _) | Some Torn => True
  | Some (Json _) | None => False
  end.

(** The fault script under which the file is read (when it exists) and
    opened for writing, and the dump then fails. *)
Definition dump_fails (w : World) (rest : list bool) : list bool :=
  match log_file w with
  | Some _ => [false]
  | None => []
  end ++ false :: true :: rest.

(** A log file that holds a JSON object. *)
Definition world_O : World :=
  world0 None [] (Some (Json (JDict [("entries", JList [])]))) [].


(** A parser of integers for the test environment: the text "77". *)
Definition int_77 (s : string) : option Z :=
  if bool_decide (s = "77") then Some 77 else None.

(** An environment with the four required keys and a worksheet name. *)
Definition environ_ok : gmap string string :=
  <["DISCORD_TOKEN" := "secret"]>
  (<["DISCORD_GUILD_ID" := "77"]>
  (<["SPREADSHEET_ID" := "sheet-1"]>
  (<["GOOGLE_CREDENTIALS_JSON" := "e30="]>
  (<["SHEET_NAME" := "Members"]> ∅)))).

Definition config_ok : Config :=
  {| TOKEN := "secret"; GUILD_ID := 77; SPREADSHEET_ID := "sheet-1";
     SHEET_NAME := "Members"; LOG_FILE := "bot_execution_log.json";
     json_b64 := "e30=" |}.

(** * Lemmas and theorems *)

Example scenario_A_sheet :
  sheet (snd (sync_members (world0 (Some two_members) [] None []))) =
  [ ["Alice"; "alice"; "1"; "https://cdn.example/a.png"; "2024-05-07 09:03:00"];
    ["Bob"; "bob"; "2"; "https://cdn.example/b.png"; "2024-05-07 09:03:01"] ].
Proof. vm_compute. reflexivity. Qed.

(** ** Reasoning about [write_log] *)

Lemma write_log_returns status member_count w :
  fst (write_log status member_count w) = Ok tt.
Proof. log_cases w; reflexivity. Qed.

Lemma write_log_frame status member_count w :
  let w' := snd (write_log status member_count w) in
  guild w' = guild w ∧ sheet w' = sheet w ∧ clock w' = clock w ∧
  reads w' = S (reads w) ∧ slept w' = slept w.
Proof. log_cases w; repeat split. Qed.

(** What a call can leave in the file: nothing new (a swallowed
    failure before the file is opened for writing), a torn file (a
    swallowed failure after it), or the new entry in front of the old
    ones, cut to 100. *)
Lemma write_log_file status member_count w :
  let w' := snd (write_log status member_count w) in
  log_file w' = log_file w ∨
  log_file w' = Some Torn ∨
  ∃ old, journal (log_file w) = Some old ∧
    log_file w' =
      Some (Json (JList (take 100 (entry_at w status member_count :: old)))).
Proof.
  log_cases w; unfold entry_at; simpl;
    first [ by left | by right; left | right; right; by eexists ].
Qed.

(** When no call fails and the file is absent or holds an array, the
    entry is recorded. *)
Lemma write_log_records status member_count w old :
  faults w = [] →
  journal (log_file w) = Some old →
  log_file (snd (write_log status member_count w)) =
    Some (Json (JList (take 100 (entry_at w status member_count :: old)))) ∧
  faults (snd (write_log status member_count w)) = [].
Proof.
  intros Hf Hj. log_cases w; simpl in *; try discriminate;
    injection Hj as <-; done.
Qed.

Lemma write_log_unreadable status member_count w :
  read_fails w →
  ∃ msg,
    write_log status member_count w =
      (Ok tt,
       set_console (console w ++ ["[log] failed: " +:+ msg])
         (set_faults (tail (faults w)) (set_reads (S (reads w)) w))).
Proof.
  unfold read_fails.
  intros H. log_cases w; simpl in *; try done; try discriminate; by eexists.
Qed.

(** ** The loop in closed form *)

Lemma granted_nil n : granted n [] = n.
Proof. by destruct n. Qed.

Lemma granted_le n fs : (granted n fs ≤ n)%nat.
Proof.
  revert fs. induction n as [|n IH]; intros [|[] fs]; simpl; try lia.
  specialize (IH fs). lia.
Qed.

Lemma granted_replicate n k rest :
  (k < n)%nat → granted n (replicate k false ++ true :: rest) = k.
Proof.
  revert n. induction k as [|k IH]; intros [|n] Hk; simpl; try lia; try done.
  rewrite IH by lia. done.
Qed.

Lemma sync_loop_closed ms existing_ids added w :
  let nm := novel ms existing_ids in
  let k := granted (length nm) (faults w) in
  sync_loop ms existing_ids added w =
    if decide (k = length nm)
    then (Ok (added + Z.of_nat (length nm)), after_appends w nm k false)
    else (Raise (APIError "append_row"), after_appends w nm k true).
Proof.
  revert existing_ids added w.
  induction ms as [|m rest IH]; intros ids added w; simpl.
  - destruct w; unfold ret, after_appends; simpl. same_outcome.
  - fold (uid_of m). case_bool_decide as Hin; [apply IH|].
    simpl.
    unfold bind at 1, utcnow. unfold bind at 1, append_row.
    unfold bind at 1, fallible.
    destruct w as [g sh lf co cl rd sl fs].
    destruct fs as [|[] fs]; simpl.
    + unfold bind at 1, sleep; simpl. rewrite IH; simpl.
      rewrite granted_nil, !decide_True by done.
      unfold after_appends; simpl. same_outcome.
    + unfold after_appends; simpl. same_outcome.
    + unfold bind at 1, sleep; simpl. rewrite IH; simpl.
      set (n := length (novel rest _)). set (k := granted n fs).
      unfold after_appends; simpl.
      destruct (decide (k = n)) as [->|Hne].
      * rewrite decide_True by done. same_outcome.
      * rewrite decide_False by lia. same_outcome.
Qed.

(** ** Facts about [novel], [stamped] and columns *)

Lemma column_app n (a b : list Row) :
  column n (a ++ b) = column n a ++ column n b.
Proof. unfold column. apply map_app. Qed.

Lemma column_stamped clk n ms :
  column 3 (stamped clk n ms) = map uid_of ms.
Proof.
  revert n. induction ms as [|m rest IH]; intros n; simpl; [done|].
  f_equal. apply IH.
Qed.

Lemma stamped_take clk n k ms :
  stamped clk n (take k ms) = take k (stamped clk n ms).
Proof.
  revert n k. induction ms as [|m rest IH]; intros n [|k]; simpl; try done.
  f_equal. apply IH.
Qed.

Lemma length_stamped clk n ms : length (stamped clk n ms) = length ms.
Proof.
  revert n. induction ms as [|m rest IH]; intros n; simpl; [done|].
  f_equal. apply IH.
Qed.

(** Every stamped row is the row of one of the members, with a reading
    of the clock taken at or after [n]. *)
Lemma elem_of_stamped clk n ms r :
  r ∈ stamped clk n ms →
  ∃ m i, m ∈ ms ∧ (n ≤ i)%nat ∧ r = member_row m (strftime (clk i)).
Proof.
  revert n. induction ms as [|m rest IH]; intros n; simpl.
  - by intros ?%elem_of_nil.
  - intros [->|Hr]%elem_of_cons.
    + exists m, n. split; [left|]. done.
    + destruct (IH _ Hr) as (m' & i & Hm & Hi & ->).
      exists m', i. split; [by right|]. split; [lia|done].
Qed.

Lemma rows_for_stamped uid clk n ms :
  length (rows_for uid (stamped clk n ms)) =
  length (filter (λ m, uid_of m = uid) ms).
Proof.
  unfold rows_for.
  revert n. induction ms as [|m rest IH]; intros n; simpl; [done|].
  rewrite !filter_cons. unfold identity at 1, member_row at 1. simpl.
  fold (uid_of m). destruct (decide (uid_of m = uid)); simpl; by rewrite IH.
Qed.

Lemma rows_for_app uid (a b : list Row) :
  rows_for uid (a ++ b) = rows_for uid a ++ rows_for uid b.
Proof. unfold rows_for. apply filter_app. Qed.

(** A sheet has no row for an identity absent from its column 3. *)
Lemma rows_for_absent uid (rows : list Row) :
  uid ∉ column 3 rows → rows_for uid rows = [].
Proof.
  unfold rows_for, column. induction rows as [|r rows IH]; simpl; [done|].
  intros Hn. rewrite filter_cons.
  destruct (decide (identity r = uid)) as [He|He].
  - exfalso. apply Hn. rewrite <- He. left.
  - apply IH. intros Hin. apply Hn. by right.
Qed.

Lemma length_filter_take {A} (P : A → Prop) `{∀ x, Decision (P x)} k
    (l : list A) :
  (length (filter P (take k l)) ≤ length (filter P l))%nat.
Proof.
  revert k. induction l as [|x l IH]; intros [|k]; simpl; try lia.
  rewrite !filter_cons. specialize (IH k).
  destruct (decide (P x)); simpl; lia.
Qed.

(** How often an identity occurs among the members the loop writes:
    never when it was seen before the loop, once when it is new and some
    member of the roster carries it. *)
Lemma novel_count ms seen uid :
  length (filter (λ m, uid_of m = uid) (novel ms seen)) =
  if bool_decide (uid ∈ seen) then O
  else if bool_decide (uid ∈ map uid_of ms) then 1%nat else O.
Proof.
  revert seen. induction ms as [|m rest IH]; intros seen; simpl.
  - by case_bool_decide.
  - destruct (decide (uid_of m ∈ seen)) as [Hm|Hm].
    + rewrite (bool_decide_eq_true_2 _ Hm), IH.
      assert (uid ∉ seen → uid_of m ≠ uid) by congruence.
      repeat case_bool_decide; try done; set_solver.
    + rewrite (bool_decide_eq_false_2 _ Hm), filter_cons.
      destruct (decide (uid_of m = uid)) as [He|He].
      * simpl. rewrite IH. subst uid.
        rewrite (bool_decide_eq_true_2 (_ ∈ _ ∪ _)) by set_solver.
        rewrite (bool_decide_eq_false_2 _ Hm).
        rewrite bool_decide_eq_true_2; [done|]. by left.
      * rewrite IH.
        repeat case_bool_decide; try done; set_solver.
Qed.

Lemma elem_of_novel ms seen m : m ∈ novel ms seen → m ∈ ms.
Proof.
  revert seen. induction ms as [|m' rest IH]; intros seen; simpl; [done|].
  case_bool_decide.
  - intros ?%IH. by right.
  - intros [->|?%IH]%elem_of_cons; [left|by right].
Qed.

(** When every member is already represented the loop writes nobody. *)
Lemma novel_nil ms seen :
  (∀ m, m ∈ ms → uid_of m ∈ seen) → novel ms seen = [].
Proof.
  induction ms as [|m rest IH]; intros Hall; simpl; [done|].
  rewrite bool_decide_eq_true_2 by (apply Hall; left).
  apply IH. intros m' ?. apply Hall. by right.
Qed.

(** ** One run in closed form *)

Lemma sync_members_unresolved w :
  guild w = None →
  sync_members w = (Ok tt, set_console (console w ++ [not_found_line]) w).
Proof.
  intros Hg. unfold sync_members, bind, get_guild. by rewrite Hg.
Qed.

(** The run of a resolved guild: the read of column 3 fails, or the loop
    stops at a failed append, or the loop finishes and the log is
    written. *)
Lemma sync_members_resolved w g :
  guild w = Some g →
  let w1 := set_console (console w ++ [fetching_line g]) w in
  let w2 := set_faults (tail (faults w)) w1 in
  let n := length (pending w) in
  sync_members w =
    match faults w with
    | true :: fs => (Raise (APIError "col_values"), set_faults fs w1)
    | _ =>
        if decide (appends w = n)
        then write_log "sync" (Z.of_nat n)
               (set_console (console w ++ [fetching_line g;
                                           complete_line (Z.of_nat n)])
                  (after_appends w2 (pending w) n false))
        else (Raise (APIError "append_row"),
              after_appends w2 (pending w) (appends w) true)
    end.
Proof.
  intros Hg. unfold appends, pending, roster, known. rewrite Hg.
  unfold sync_members. unfold bind at 1, get_guild. rewrite Hg.
  unfold bind at 1, print. unfold bind at 1, col_values.
  unfold bind at 1, fallible.
  destruct w as [g' sh lf co cl rd sl fs]; simpl in *. subst g'.
  destruct fs as [|[] fs]; simpl; [| done |].
  - unfold bind at 1. rewrite sync_loop_closed; simpl.
    rewrite granted_nil, !decide_True by done.
    unfold bind, print, fetching_line, complete_line. simpl.
    rewrite Z.add_0_l. f_equal. unfold after_appends; simpl.
    rewrite <- app_assoc. same_outcome.
  - unfold bind at 1. rewrite sync_loop_closed; simpl.
    set (nm := novel _ _).
    destruct (decide (granted (length nm) fs = length nm)) as [He|He].
    + unfold bind, print, fetching_line, complete_line. simpl.
      rewrite Z.add_0_l, He. f_equal. unfold after_appends; simpl.
      rewrite <- app_assoc. same_outcome.
    + done.
Qed.

Lemma appends_le w : (appends w ≤ length (pending w))%nat.
Proof.
  unfold appends. destruct (guild w); [|lia].
  destruct (faults w) as [|[] fs]; simpl; try lia; apply granted_le.
Qed.

Lemma length_new_rows w : length (new_rows w) = appends w.
Proof.
  unfold new_rows. rewrite length_stamped, length_take.
  pose proof (appends_le w). lia.
Qed.

(** Everything the claims need to know about one run. *)
Lemma run_summary w :
  let r := sync_members w in
  sheet (snd r) = sheet w ++ new_rows w ∧
  guild (snd r) = guild w ∧
  clock (snd r) = clock w ∧
  match fst r with
  | Ok _ =>
      appends w = length (pending w) ∧
      (guild w = None → log_file (snd r) = log_file w) ∧
      (log_file (snd r) = log_file w ∨
       log_file (snd r) = Some Torn ∨
       ∃ old, journal (log_file w) = Some old ∧
         log_file (snd r) =
           Some (Json (JList (take 100 (sync_entry w :: old)))))
  | Raise e =>
      (e = APIError "col_values" ∧ new_rows w = [] ∨
       e = APIError "append_row" ∧ (appends w < length (pending w))%nat) ∧
      log_file (snd r) = log_file w
  end.
Proof.
  pose proof (length_new_rows w) as Hlen.
  unfold sync_entry. rewrite Hlen. clear Hlen.
  destruct (guild w) as [g|] eqn:Hg.
  - rewrite (sync_members_resolved w g Hg).
    unfold new_rows.
    destruct (faults w) as [|[] fs] eqn:Hf.
    1,3: destruct (decide (appends w = length (pending w))) as [He|He].
    1,3: set (w3 := set_console _ _);
         pose proof (write_log_frame "sync" (Z.of_nat (length (pending w))) w3)
           as (Hg3 & Hs3 & Hc3 & _);
         pose proof (write_log_file "sync" (Z.of_nat (length (pending w))) w3)
           as Hfile;
         rewrite (write_log_returns "sync" _ w3), Hg3, Hs3, Hc3;
         rewrite He; subst w3; unfold entry_at in Hfile; simpl in *;
         (split; [done|]); (split; [done|]); (split; [done|]);
         (split; [done|]); (split; [congruence|]); exact Hfile.
    1,2: pose proof (appends_le w); simpl;
         (split; [done|]); (split; [done|]); (split; [done|]);
         (split; [right; split; [done|lia]|done]).
    unfold appends, pending, roster. rewrite Hg, Hf. simpl.
    rewrite app_nil_r. repeat split; auto.
  - rewrite (sync_members_unresolved w Hg).
    unfold new_rows, appends, pending, roster.
    rewrite Hg. simpl. rewrite app_nil_r. repeat split; auto.
Qed.

Lemma elem_of_known w uid : uid ∈ known w ↔ uid ∈ column 3 (sheet w).
Proof. unfold known. apply elem_of_list_to_set. Qed.

Lemma pending_count w uid :
  length (filter (λ m, uid_of m = uid) (pending w)) = due w uid.
Proof.
  unfold pending, due. rewrite novel_count.
  by rewrite (bool_decide_ext _ _ (elem_of_known w uid)).
Qed.

Lemma new_rows_count_le w uid :
  (length (rows_for uid (new_rows w)) ≤ due w uid)%nat.
Proof.
  unfold new_rows. rewrite rows_for_stamped, <- pending_count.
  apply length_filter_take.
Qed.

Lemma new_rows_count w uid :
  appends w = length (pending w) →
  length (rows_for uid (new_rows w)) = due w uid.
Proof.
  intros He. unfold new_rows.
  by rewrite rows_for_stamped, He, firstn_all, pending_count.
Qed.

Lemma due_le_1 w uid : (due w uid ≤ 1)%nat.
Proof. unfold due. repeat case_bool_decide; lia. Qed.

Lemma due_member w g m :
  guild w = Some g → m ∈ members g →
  due w (uid_of m) =
    if bool_decide (uid_of m ∈ column 3 (sheet w)) then O else 1%nat.
Proof.
  intros Hg Hm. unfold due, roster. rewrite Hg.
  case_bool_decide; [done|].
  rewrite bool_decide_eq_true_2; [done|]. by apply list_elem_of_fmap_2.
Qed.

Lemma column_new_rows w :
  appends w = length (pending w) →
  column 3 (new_rows w) = map uid_of (pending w).
Proof.
  intros He. unfold new_rows. by rewrite He, firstn_all, column_stamped.
Qed.

(** After a complete run every member of the roster is represented. *)
Lemma represented_after w m :
  appends w = length (pending w) →
  m ∈ roster w →
  uid_of m ∈ column 3 (sheet w ++ new_rows w).
Proof.
  intros He Hm. rewrite column_app, elem_of_app.
  destruct (decide (uid_of m ∈ column 3 (sheet w))) as [|Hn]; [by left|].
  right. rewrite column_new_rows by done.
  pose proof (pending_count w (uid_of m)) as Hc.
  unfold due in Hc. rewrite (bool_decide_eq_false_2 _ Hn) in Hc.
  rewrite bool_decide_eq_true_2 in Hc by by apply list_elem_of_fmap_2.
  destruct (filter _ (pending w)) as [|m' l] eqn:Hf; [done|].
  assert (m' ∈ filter (λ m0, uid_of m0 = uid_of m) (pending w)) as Hin
    by (rewrite Hf; left).
  apply list_elem_of_filter in Hin as [<- Hin].
  by apply list_elem_of_fmap_2.
Qed.

(** A run that meets no failure, on a log file that is absent or holds an
    array, finishes and records its entry. *)
Lemma run_without_faults w old :
  faults w = [] →
  is_Some (guild w) →
  journal (log_file w) = Some old →
  fst (sync_members w) = Ok tt ∧
  log_file (snd (sync_members w)) =
    Some (Json (JList (take 100 (sync_entry w :: old)))).
Proof.
  intros Hf [g Hg] Hj.
  assert (appends w = length (pending w)) as He.
  { unfold appends. rewrite Hg, Hf. simpl. apply granted_nil. }
  pose proof (length_new_rows w) as Hlen.
  unfold sync_entry. rewrite Hlen, He.
  rewrite (sync_members_resolved w g Hg), Hf.
  rewrite decide_True by done.
  set (w3 := set_console _ _).
  split; [apply write_log_returns|].
  destruct (write_log_records "sync" (Z.of_nat (length (pending w))) w3 old)
    as [-> _]; [| done | done].
  subst w3. simpl. apply drop_nil.
Qed.

(** ** The claims about the reconciler *)

(** C1 (completeness). A run that returns normally, for a guild that
    resolves, appends exactly one row for every member of the roster
    whose identity [str(member.id)] was not in column 3 of the sheet
    when the run began, so that the sheet then holds exactly one row
    for it. The "sync" entry of the run counts the rows it appended:
    the log file is left as it was or torn (a swallowed failure of the
    log write: no entry recorded), or else it starts with the entry
    [{timestamp, "sync", number of appended rows}] in front of its old
    entries; and the entry is recorded whenever no external call fails and
    the file was absent or held an array. *)
Theorem sync_appends_one_row_per_new_member w w' g m :
  guild w = Some g →
  sync_members w = (Ok tt, w') →
  m ∈ members g →
  str (member_id m) ∉ column 3 (sheet w) →
  ∃ new ts,
    sheet w' = sheet w ++ new ∧
    length (rows_for (str (member_id m)) new) = 1%nat ∧
    length (rows_for (str (member_id m)) (sheet w')) = 1%nat ∧
    (log_file w' = log_file w ∨
     log_file w' = Some Torn ∨
     ∃ old, journal (log_file w) = Some old ∧
       log_file w' =
         Some (Json (JList (take 100
           (log_entry ts "sync" (Z.of_nat (length new)) :: old))))) ∧
    (∀ old, faults w = [] → journal (log_file w) = Some old →
       log_file w' =
         Some (Json (JList (take 100
           (log_entry ts "sync" (Z.of_nat (length new)) :: old))))).
Proof.
  intros Hg Hrun Hm Hnew.
  pose proof (run_summary w) as (Hsheet & _ & _ & Hres).
  rewrite Hrun in Hsheet, Hres. simpl in Hsheet, Hres.
  destruct Hres as (He & _ & Hlog).
  exists (new_rows w),
    (strftime (clock w (reads w + length (new_rows w))%nat)).
  assert (length (rows_for (uid_of m) (new_rows w)) = 1%nat) as Hone.
  { rewrite (new_rows_count w _ He), (due_member w g m Hg Hm).
    by rewrite bool_decide_eq_false_2. }
  split; [done|]. split; [done|]. split.
  { rewrite Hsheet, rows_for_app, length_app.
    fold (uid_of m). rewrite (rows_for_absent _ (sheet w)) by done.
    by rewrite Hone. }
  split; [exact Hlog|].
  intros old Hf Hj.
  destruct (run_without_faults w old Hf) as [_ Hrec]; [by eexists|done|].
  by rewrite Hrun in Hrec.
Qed.

Lemma sync_appends_one_row_per_new_member_witness :
  guild world_B = Some two_members ∧
  sync_members world_B = (Ok tt, snd (sync_members world_B)) ∧
  bob ∈ members two_members ∧
  (str (member_id bob) ∉ column 3 (sheet world_B)) ∧
  ∃ new ts,
    sheet (snd (sync_members world_B)) = sheet world_B ++ new ∧
    length (rows_for (str (member_id bob)) new) = 1%nat ∧
    length (rows_for (str (member_id bob))
              (sheet (snd (sync_members world_B)))) = 1%nat ∧
    (log_file (snd (sync_members world_B)) = log_file world_B ∨
     log_file (snd (sync_members world_B)) = Some Torn ∨
     ∃ old, journal (log_file world_B) = Some old ∧
       log_file (snd (sync_members world_B)) =
         Some (Json (JList (take 100
           (log_entry ts "sync" (Z.of_nat (length new)) :: old))))) ∧
    (∀ old, faults world_B = [] → journal (log_file world_B) = Some old →
       log_file (snd (sync_members world_B)) =
         Some (Json (JList (take 100
           (log_entry ts "sync" (Z.of_nat (length new)) :: old))))).
Proof.
  assert (guild world_B = Some two_members) as H1 by reflexivity.
  assert (sync_members world_B = (Ok tt, snd (sync_members world_B))) as H2
    by (vm_compute; reflexivity).
  assert (bob ∈ members two_members) as H3 by (right; left).
  assert (str (member_id bob) ∉ column 3 (sheet world_B)) as H4
    by (apply (bool_decide_unpack _); vm_compute; exact I).
  repeat (split; [assumption|]).
  exact (sync_appends_one_row_per_new_member world_B _ two_members bob
           H1 H2 H3 H4).
Defined.

(** Scenario B, evaluated: the sheet gains the row of id 2 only, and the
    log holds one entry with [member_count] 1. *)
Example scenario_B :
  let w' := snd (sync_members world_B) in
  sheet w' =
    sheet_B ++ [ ["Bob"; "bob"; "2"; "https://cdn.example/b.png";
                  "2024-05-07 09:03:00"] ] ∧
  log_file w' =
    Some (Json (JList [log_entry "2024-05-07 09:03:01" "sync" 1])).
Proof. vm_compute. split; reflexivity. Qed.

(** C2 (no duplication). Whatever the outcome of a run, the rows it
    appends contain no row for a member whose identity was in column 3
    of the sheet when the run began, and at most one row for any
    identity, however often that identity occurs in the roster: the loop
    adds the identity to [existing_ids] right after the append, so a
    second occurrence is skipped. *)
Theorem sync_never_duplicates w :
  ∃ new,
    sheet (snd (sync_members w)) = sheet w ++ new ∧
    (∀ m, m ∈ roster w → str (member_id m) ∈ column 3 (sheet w) →
          rows_for (str (member_id m)) new = []) ∧
    (∀ uid, (length (rows_for uid new) ≤ 1)%nat).
Proof.
  exists (new_rows w).
  split; [apply (run_summary w)|]. split.
  - intros m _ Hin. apply length_zero_iff_nil.
    pose proof (new_rows_count_le w (uid_of m)) as Hle.
    unfold due in Hle. rewrite bool_decide_eq_true_2 in Hle by done.
    fold (uid_of m). lia.
  - intros uid. pose proof (new_rows_count_le w uid).
    pose proof (due_le_1 w uid). lia.
Qed.

(** The mechanism of C2 on the loop itself: a member whose identity the
    loop has in [existing_ids] is skipped, and after an append the
    identity is in the set the rest of the loop runs with. *)
Lemma sync_loop_skips_known m rest existing_ids added :
  uid_of m ∈ existing_ids →
  sync_loop (m :: rest) existing_ids added = sync_loop rest existing_ids added.
Proof. intros Hin. simpl. fold (uid_of m). by rewrite bool_decide_eq_true_2. Qed.

(** A roster that yields the same member twice: one row for it. *)
Example duplicate_in_roster :
  column 3 (sheet (snd (sync_members (world0 (Some twins) sheet_B None []))))
  = ["1"; "2"].
Proof. vm_compute. reflexivity. Qed.

(** C3 (idempotence). After a run that returned normally, a second run
    that starts from the same roster and the same sheet appends nothing,
    whatever else changed in between (clock, log file, console, coming
    failures) and whatever the second run's own outcome. Nothing of the
    first run is kept but the sheet: [sync_members] builds
    [existing_ids] from column 3 of the sheet it finds. *)
Theorem second_run_appends_nothing w w1 w2 :
  sync_members w = (Ok tt, w1) →
  guild w2 = guild w →
  sheet w2 = sheet w1 →
  sheet (snd (sync_members w2)) = sheet w2.
Proof.
  intros Hrun Hg Hs.
  pose proof (run_summary w) as (Hsheet & _ & _ & Hres).
  rewrite Hrun in Hsheet, Hres. simpl in Hsheet, Hres.
  destruct Hres as (He & _).
  assert (pending w2 = []) as Hnone.
  { unfold pending. apply novel_nil. intros m Hm.
    apply elem_of_known. rewrite Hs, Hsheet.
    apply represented_after; [done|].
    unfold roster in *. by rewrite <- Hg. }
  destruct (run_summary w2) as (-> & _).
  unfold new_rows. rewrite Hnone, take_nil. simpl. apply app_nil_r.
Qed.

Lemma second_run_appends_nothing_witness :
  sync_members world_B = (Ok tt, snd (sync_members world_B)) ∧
  guild (snd (sync_members world_B)) = guild world_B ∧
  sheet (snd (sync_members world_B)) = sheet (snd (sync_members world_B)) ∧
  sheet (snd (sync_members (snd (sync_members world_B)))) =
    sheet (snd (sync_members world_B)).
Proof.
  assert (sync_members world_B = (Ok tt, snd (sync_members world_B))) as H1
    by (vm_compute; reflexivity).
  assert (guild (snd (sync_members world_B)) = guild world_B) as H2
    by (vm_compute; reflexivity).
  split; [exact H1|]. split; [exact H2|]. split; [reflexivity|].
  exact (second_run_appends_nothing world_B _ _ H1 H2 eq_refl).
Defined.

(** The set is not cached: when a row is removed from the sheet between
    two runs, the second run writes the member again. *)
Example refreshed_every_run :
  let w1 := snd (sync_members world_B) in
  let w2 := set_sheet sheet_B w1 in
  column 3 (sheet w1) = ["1"; "2"] ∧
  column 3 (sheet (snd (sync_members w2))) = ["1"; "2"] ∧
  new_rows w2 =
    [ ["Bob"; "bob"; "2"; "https://cdn.example/b.png";
       "2024-05-07 09:03:02"] ].
Proof. vm_compute. repeat split; reflexivity. Qed.

(** C4 (unresolved guild). When [bot.get_guild] answers [None] the run
    returns normally and only prints: the sheet and the log file are
    what they were, no clock reading, no sleep and no external call is
    made, and the console gains the one line of the report. *)
Theorem unresolved_guild_changes_nothing w :
  guild w = None →
  sync_members w = (Ok tt, set_console (console w ++ [not_found_line]) w) ∧
  sheet (snd (sync_members w)) = sheet w ∧
  log_file (snd (sync_members w)) = log_file w ∧
  new_rows w = [].
Proof.
  intros Hg. rewrite (sync_members_unresolved w Hg). simpl.
  repeat split. unfold new_rows, appends. by rewrite Hg.
Qed.

Lemma unresolved_guild_changes_nothing_witness :
  guild world_C = None ∧
  sync_members world_C =
    (Ok tt, set_console (console world_C ++ [not_found_line]) world_C) ∧
  sheet (snd (sync_members world_C)) = sheet world_C ∧
  log_file (snd (sync_members world_C)) = log_file world_C ∧
  new_rows world_C = [].
Proof.
  split; [reflexivity|].
  apply (unresolved_guild_changes_nothing world_C). reflexivity.
Defined.

Lemma drop_replicate_cons {A} k (x y : A) rest :
  drop (S k) (replicate k x ++ y :: rest) = rest.
Proof. induction k as [|k IH]; simpl; [done|exact IH]. Qed.

(** C5 (failure in the middle of the batch). Let the read of column 3
    and the first [k] appends succeed and the next append fail, while
    more than [k] members are to be written. Then [sync_members] raises
    the error of [append_row]: the [k] rows appended before it stay in
    the sheet and nothing else is added, no further external call is
    attempted (the rest of the fault script is not consumed), the clock
    was read once per attempted row and never for a log entry, the log
    file is what it was and the console has no "complete" line. *)
Theorem append_failure_aborts_run w g k rest :
  guild w = Some g →
  faults w = replicate (S k) false ++ true :: rest →
  (k < length (pending w))%nat →
  sync_members w =
    (Raise (APIError "append_row"),
     {| guild := guild w;
        sheet := sheet w ++ stamped (clock w) (reads w) (take k (pending w));
        log_file := log_file w;
        console := console w ++ [fetching_line g];
        clock := clock w;
        reads := (reads w + S k)%nat;
        slept := (slept w + k)%nat;
        faults := rest |}).
Proof.
  intros Hg Hf Hk.
  assert (appends w = k) as Ha.
  { unfold appends. rewrite Hg, Hf. simpl. by apply granted_replicate. }
  rewrite (sync_members_resolved w g Hg), Ha, Hf. simpl.
  rewrite decide_False by lia.
  unfold after_appends. simpl.
  by rewrite drop_replicate_cons.
Qed.

Lemma append_failure_aborts_run_witness :
  guild world_F = Some two_members ∧
  faults world_F = replicate 2 false ++ true :: [false] ∧
  (1 < length (pending world_F))%nat ∧
  sync_members world_F =
    (Raise (APIError "append_row"),
     {| guild := guild world_F;
        sheet := sheet world_F ++
                 stamped (clock world_F) (reads world_F)
                   (take 1 (pending world_F));
        log_file := log_file world_F;
        console := console world_F ++ [fetching_line two_members];
        clock := clock world_F;
        reads := (reads world_F + 2)%nat;
        slept := (slept world_F + 1)%nat;
        faults := [false] |}).
Proof.
  assert (guild world_F = Some two_members) as H1 by reflexivity.
  assert (faults world_F = replicate 2 false ++ true :: [false]) as H2
    by reflexivity.
  assert (1 < length (pending world_F))%nat as H3 by (vm_compute; lia).
  split; [exact H1|]. split; [exact H2|]. split; [exact H3|].
  exact (append_failure_aborts_run world_F two_members 1 [false] H1 H2 H3).
Defined.

Example failed_batch_keeps_first_row :
  let w' := snd (sync_members world_F) in
  column 3 (sheet w') = ["1"] ∧ log_file w' = None ∧
  console w' = ["[sync] fetching members from Test (ID: 77)"].
Proof. vm_compute. repeat split; reflexivity. Qed.

(** Any exception that leaves [sync_members] comes from the spreadsheet
    API, and the run that raises it has not touched the log file. *)
Lemma raised_run_leaves_log w e w' :
  sync_members w = (Raise e, w') →
  (∃ msg, e = APIError msg) ∧ log_file w' = log_file w.
Proof.
  intros Hrun. pose proof (run_summary w) as (_ & _ & _ & Hres).
  rewrite Hrun in Hres. simpl in Hres.
  destruct Hres as [[[-> _]|[-> _]] Hlog]; split; eauto.
Qed.

(** ** The claims about the execution log *)

Lemma length_entries_of clk n evs :
  length (entries_of clk n evs) = length evs.
Proof.
  revert n. induction evs as [|[s c] rest IH]; intros n; simpl; [done|].
  f_equal. apply IH.
Qed.

Lemma take_app_take {A} n (a b : list A) :
  take n (a ++ take n b) = take n (a ++ b).
Proof.
  rewrite !take_app, take_take. do 2 f_equal. lia.
Qed.

(** After at least one event, with no failing call and a log file that
    was absent or held the array [old]: the new entries, most recent
    first, in front of the old ones, cut to 100. *)
Lemma log_events_closed evs w old :
  evs ≠ [] →
  faults w = [] →
  journal (log_file w) = Some old →
  fst (log_events evs w) = Ok tt ∧
  log_file (snd (log_events evs w)) =
    Some (Json (JList (take 100
      (rev (entries_of (clock w) (reads w) evs) ++ old)))).
Proof.
  revert w old. induction evs as [|[s c] rest IH]; intros w old Hne Hf Hj;
    [done|].
  simpl. unfold bind.
  destruct (write_log_records s c w old Hf Hj) as [Hfile Hf1].
  pose proof (write_log_frame s c w) as (_ & _ & Hclk & Hrd & _).
  pose proof (write_log_returns s c w) as Hok.
  destruct (write_log s c w) as [r w1]. simpl in *. subst r.
  destruct rest as [|ev rest'].
  - simpl. unfold ret. simpl. by rewrite Hfile.
  - destruct (IH w1 (take 100 (entry_at w s c :: old))) as [IHok IHfile];
      [done|done|by rewrite Hfile|].
    split; [done|].
    rewrite IHfile, Hclk, Hrd, take_app_take.
    unfold entry_at. by rewrite <- app_assoc.
Qed.

(** C6 (log bound). After [N ≥ 100] calls of [write_log] in a row, none
    of whose file operations fails, on a log file that was absent or held
    an array, the file holds exactly 100 entries: those of the last 100
    calls, the most recent first. Each call puts its entry in front and
    keeps the first 100 of the list, which it writes back whole. *)
Theorem log_keeps_last_100 evs w :
  faults w = [] →
  is_Some (journal (log_file w)) →
  (100 ≤ length evs)%nat →
  let es := entries_of (clock w) (reads w) evs in
  fst (log_events evs w) = Ok tt ∧
  log_file (snd (log_events evs w)) = Some (Json (JList (take 100 (rev es)))) ∧
  take 100 (rev es) = rev (drop (length evs - 100) es) ∧
  length (take 100 (rev es)) = 100%nat.
Proof.
  intros Hf [old Hj] Hn es.
  assert (length es = length evs) as Hlen by apply length_entries_of.
  destruct (log_events_closed evs w old) as [Hok Hfile]; try done.
  { intros ->. simpl in Hn. lia. }
  split; [done|]. split; [|split].
  - rewrite Hfile. fold es. do 3 f_equal.
    rewrite take_app_le; [done|]. rewrite length_rev. lia.
  - rewrite <- (take_drop (length evs - 100) es) at 1.
    rewrite rev_app_distr, take_app_le by (rewrite length_rev, length_drop; lia).
    apply take_ge. rewrite length_rev, length_drop. lia.
  - rewrite length_take, length_rev. lia.
Qed.

Lemma log_keeps_last_100_witness :
  faults (world0 None [] None []) = [] ∧
  is_Some (journal (log_file (world0 None [] None []))) ∧
  (100 ≤ length events_101)%nat ∧
  let w := world0 None [] None [] in
  let es := entries_of (clock w) (reads w) events_101 in
  fst (log_events events_101 w) = Ok tt ∧
  log_file (snd (log_events events_101 w)) =
    Some (Json (JList (take 100 (rev es)))) ∧
  take 100 (rev es) = rev (drop (length events_101 - 100) es) ∧
  length (take 100 (rev es)) = 100%nat.
Proof.
  assert (faults (world0 None [] None []) = []) as H1 by reflexivity.
  assert (is_Some (journal (log_file (world0 None [] None [])))) as H2
    by (by eexists).
  assert (100 ≤ length events_101)%nat as H3 by (vm_compute; lia).
  split; [exact H1|]. split; [exact H2|]. split; [exact H3|].
  exact (log_keeps_last_100 events_101 (world0 None [] None []) H1 H2 H3).
Defined.

(** The oldest of the 101 entries is gone, the newest is first. *)
Example log_101_events :
  match log_file (snd (log_events events_101 (world0 None [] None []))) with
  | Some (Json (JList l)) =>
      length l = 100%nat ∧
      head l = Some (log_entry "2024-05-07 09:03:40" "e" 100) ∧
      last l = Some (log_entry "2024-05-07 09:03:01" "e" 1)
  | _ => False
  end.
Proof. vm_compute. repeat split; reflexivity. Qed.

Lemma run_result w : fst (sync_members w) = run_outcome w.
Proof.
  unfold run_outcome. destruct (guild w) as [g|] eqn:Hg.
  - rewrite (sync_members_resolved w g Hg).
    destruct (faults w) as [|[] fs]; try done;
      destruct (decide _); try done; apply write_log_returns.
  - by rewrite (sync_members_unresolved w Hg).
Qed.

Lemma write_log_console status member_count w :
  let w' := snd (write_log status member_count w) in
  console w' = console w ∨
  ∃ msg, console w' = console w ++ ["[log] failed: " +:+ msg].
Proof. log_cases w; first [ by left | right; by eexists ]. Qed.

(** C7 (log failures are swallowed). [write_log] returns normally for
    every status, count and world, whatever the log file holds and
    whichever of its file operations fail; it leaves the guild and the
    sheet alone and reports a failure by one console line at most. The
    outcome of the reconciler does not depend on the log: with any other
    log file in place of the present one, [sync_members] returns or
    raises the same and leaves the same sheet, and what it raises is
    never an error of the log write. *)
Theorem write_log_never_raises :
  (∀ status member_count w,
     let w' := snd (write_log status member_count w) in
     fst (write_log status member_count w) = Ok tt ∧
     sheet w' = sheet w ∧ guild w' = guild w ∧
     (console w' = console w ∨
      ∃ msg, console w' = console w ++ ["[log] failed: " +:+ msg])) ∧
  (∀ w f,
     fst (sync_members (set_log_file f w)) = fst (sync_members w) ∧
     sheet (snd (sync_members (set_log_file f w))) =
       sheet (snd (sync_members w))) ∧
  (∀ w, match fst (sync_members w) with
        | Ok _ | Raise (APIError _) => True
        | Raise _ => False
        end).
Proof.
  split; [|split].
  - intros status member_count w w'. subst w'.
    pose proof (write_log_frame status member_count w) as (Hg & Hs & _).
    split; [apply write_log_returns|]. split; [done|]. split; [done|].
    apply write_log_console.
  - intros w f. rewrite !run_result. split; [done|].
    destruct (run_summary w) as (-> & _).
    destruct (run_summary (set_log_file f w)) as (-> & _). done.
  - intros w. rewrite run_result. unfold run_outcome.
    destruct (guild w); [|done].
    destruct (faults w) as [|[] ?]; try done; by destruct (decide _).
Qed.

(** The read of column 3 and the two appends succeed, then the log file
    cannot be opened: the reconciler is not affected. *)
Example log_faults_do_not_surface :
  let w := world0 (Some two_members) []
             (Some (Json (JList []))) [false; false; false; true] in
  fst (sync_members w) = Ok tt ∧
  column 3 (sheet (snd (sync_members w))) = ["1"; "2"] ∧
  log_file (snd (sync_members w)) = Some (Json (JList [])) ∧
  last (console (snd (sync_members w))) = Some "[log] failed: open".
Proof. vm_compute. repeat split; reflexivity. Qed.

(** A failure of the dump leaves the file torn, and is swallowed too. *)
Example torn_log :
  let w := world0 (Some two_members) []
             (Some (Json (JList []))) [false; false; false; false; false; true] in
  fst (sync_members w) = Ok tt ∧
  log_file (snd (sync_members w)) = Some Torn ∧
  last (console (snd (sync_members w))) = Some "[log] failed: write".
Proof. vm_compute. repeat split; reflexivity. Qed.

(** C10 (unreadable log). When the log file exists and reading it fails
    (it cannot be opened, or it does not hold valid JSON), [write_log]
    returns normally and the file is what it was: the new entry is
    dropped, the corrupt file is neither replaced nor truncated. The
    failure is one line on the console; the sheet is untouched. *)
Theorem unreadable_log_is_left_untouched status member_count w :
  read_fails w →
  let w' := snd (write_log status member_count w) in
  fst (write_log status member_count w) = Ok tt ∧
  log_file w' = log_file w ∧
  sheet w' = sheet w ∧
  ∃ msg, console w' = console w ++ ["[log] failed: " +:+ msg].
Proof.
  intros Hr w'. subst w'.
  destruct (write_log_unreadable status member_count w Hr) as [msg ->].
  simpl. repeat split. by exists msg.
Qed.

Lemma unreadable_log_is_left_untouched_witness :
  read_fails world_G ∧
  let w' := snd (write_log "sync" 3 world_G) in
  fst (write_log "sync" 3 world_G) = Ok tt ∧
  log_file w' = log_file world_G ∧
  sheet w' = sheet world_G ∧
  ∃ msg, console w' = console world_G ++ ["[log] failed: " +:+ msg].
Proof.
  assert (read_fails world_G) as H by exact I.
  split; [exact H|].
  exact (unreadable_log_is_left_untouched "sync" 3 world_G H).
Defined.

Example garbage_log_survives :
  let w' := snd (write_log "sync" 3 world_G) in
  log_file w' = Some (Garbage "[{'timestamp': ") ∧
  console w' = ["[log] failed: Expecting value"].
Proof. vm_compute. split; reflexivity. Qed.

(** The same holds for a file whose JSON is not an array: [insert] is
    missing and the [AttributeError] is swallowed before any write. *)
Lemma write_log_not_array status member_count w v :
  log_file w = Some (Json v) →
  journal (log_file w) = None →
  fst (write_log status member_count w) = Ok tt ∧
  log_file (snd (write_log status member_count w)) = log_file w.
Proof.
  intros Hv Hj. log_cases w; simpl in *; try discriminate; done.
Qed.

(** ** The layout of a row *)

Lemma is_digit_pretty_N_char x : is_digit (pretty_N_char x) = true.
Proof.
  destruct x as [|p]; [done|].
  do 4 (destruct p as [p|p|]; try done).
Qed.

Lemma pretty_nat_1 n :
  (n < 10)%nat → pretty n = String (pretty_N_char (N.of_nat n)) "".
Proof.
  intros Hn. unfold pretty, pretty_nat, pretty, pretty_N.
  case_decide as Hz; [by rewrite Hz|].
  rewrite pretty_N_go_step by lia.
  rewrite N.div_small, pretty_N_go_0 by lia.
  by rewrite N.mod_small by lia.
Qed.

Lemma pretty_nat_2 n :
  (10 ≤ n < 100)%nat →
  pretty n = String (pretty_N_char (N.of_nat n `div` 10))
               (String (pretty_N_char (N.of_nat n `mod` 10)) "").
Proof.
  intros Hn. unfold pretty, pretty_nat, pretty, pretty_N.
  rewrite decide_False by lia.
  assert (0 < N.of_nat n `div` 10 < 10)%N as Hq.
  { split; [apply N.div_str_pos; lia|].
    apply N.Div0.div_lt_upper_bound; lia. }
  rewrite 2!pretty_N_go_step by lia.
  rewrite (N.div_small (_ `div` 10)), pretty_N_go_0 by lia.
  by rewrite (N.mod_small (_ `div` 10)) by lia.
Qed.

Lemma pretty_nat_4 n :
  1000 ≤ Z.of_nat n < 10000 →
  ∃ a b c d,
    pretty n = String (pretty_N_char a) (String (pretty_N_char b)
                 (String (pretty_N_char c) (String (pretty_N_char d) ""))).
Proof.
  intros Hn. unfold pretty, pretty_nat, pretty, pretty_N.
  rewrite decide_False by lia.
  set (x := N.of_nat n).
  assert (1000 ≤ x < 10000)%N as Hx by lia.
  assert (100 ≤ x `div` 10 < 1000)%N as H1.
  { split; [apply N.div_le_lower_bound; lia|].
    apply N.Div0.div_lt_upper_bound; lia. }
  assert (10 ≤ (x `div` 10) `div` 10 < 100)%N as H2.
  { split; [apply N.div_le_lower_bound; lia|].
    apply N.Div0.div_lt_upper_bound; lia. }
  assert (1 ≤ ((x `div` 10) `div` 10) `div` 10 < 10)%N as H3.
  { split; [apply N.div_le_lower_bound; lia|].
    apply N.Div0.div_lt_upper_bound; lia. }
  rewrite 4!pretty_N_go_step by lia.
  rewrite (N.div_small (((_ `div` 10) `div` 10) `div` 10)), pretty_N_go_0
    by lia.
  by eexists _, _, _, _.
Qed.

Lemma pad2_digits n :
  (n < 100)%nat →
  ∃ a b, pad2 n = String (pretty_N_char a) (String (pretty_N_char b) "").
Proof.
  intros Hn. unfold pad2. destruct (n <? 10)%nat eqn:Hlt.
  - apply Nat.ltb_lt in Hlt. rewrite pretty_nat_1 by done.
    by exists 0%N, (N.of_nat n).
  - apply Nat.ltb_ge in Hlt. rewrite pretty_nat_2 by lia.
    by eexists _, _.
Qed.

Lemma strftime_format dt :
  valid_datetime dt → is_timestamp (strftime dt) = true.
Proof.
  intros (Hy & Hm & Hd & Hh & Hmi & Hs). unfold strftime.
  destruct (pretty_nat_4 (year dt)) as (y1 & y2 & y3 & y4 & ->); [lia|].
  destruct (pad2_digits (month dt)) as (m1 & m2 & ->); [lia|].
  destruct (pad2_digits (day dt)) as (d1 & d2 & ->); [lia|].
  destruct (pad2_digits (hour dt)) as (h1 & h2 & ->); [lia|].
  destruct (pad2_digits (minute dt)) as (n1 & n2 & ->); [lia|].
  destruct (pad2_digits (second dt)) as (s1 & s2 & ->); [lia|].
  unfold is_timestamp. cbv [String.append list_ascii_of_string forallb].
  rewrite !is_digit_pretty_N_char. reflexivity.
Qed.

Lemma lookup_stamped clk n ms j r :
  stamped clk n ms !! j = Some r →
  ∃ m, ms !! j = Some m ∧ r = member_row m (strftime (clk (n + j)%nat)).
Proof.
  revert n j. induction ms as [|m rest IH]; intros n [|j]; simpl; try done.
  - intros [= <-]. exists m. by rewrite Nat.add_0_r.
  - intros Hr. destruct (IH _ _ Hr) as (m' & Hm' & ->).
    exists m'. split; [done|]. do 3 f_equal. lia.
Qed.

(** The loop writes nobody whose identity it started from. *)
Lemma novel_not_seen ms seen m : m ∈ novel ms seen → uid_of m ∉ seen.
Proof.
  revert seen. induction ms as [|m0 rest IH]; intros seen; simpl.
  - by intros ?%elem_of_nil.
  - case_bool_decide as Hin; [apply IH|].
    intros [->|Hm]%elem_of_cons; [done|].
    apply IH in Hm. set_solver.
Qed.

(** The run reads the clock once for each row it appends, at least. *)
Lemma run_reads w :
  (reads w + length (new_rows w) ≤ reads (snd (sync_members w)))%nat.
Proof.
  rewrite length_new_rows. destruct (guild w) as [g|] eqn:Hg.
  - rewrite (sync_members_resolved w g Hg).
    destruct (faults w) as [|[] fs] eqn:Hf.
    1,3: destruct (decide (appends w = length (pending w))) as [He|He].
    1,3: set (w3 := set_console _ _);
         pose proof (write_log_frame "sync" (Z.of_nat (length (pending w))) w3)
           as (_ & _ & _ & Hrd & _);
         rewrite Hrd; subst w3; simpl; lia.
    1,2: simpl; lia.
    unfold appends. rewrite Hg, Hf. simpl. lia.
  - rewrite (sync_members_unresolved w Hg). unfold appends. rewrite Hg.
    simpl. lia.
Qed.

(** C8 (row layout). Whatever the outcome of a run, the row it appends
    in position [j] (counted from 0) is the list of five cells
    [display_name; name; str(id); avatar URL; timestamp] of a member of
    the roster. The timestamp is the reading of the clock number [j] of
    the run, a reading the run has taken when it ends, formatted
    "YYYY-MM-DD HH:MM:SS" (for a clock that answers valid dates with a
    year of four digits). The identity is the third cell, and column 3
    is the column the run reads to decide: the identity of an appended
    row is not among the cells column 3 held when the run began, and
    column 3 of the sheet after the run is column 3 before it followed
    by the identities of the appended rows. *)
Theorem appended_rows_layout w :
  (∀ n, valid_datetime (clock w n)) →
  ∃ new,
    sheet (snd (sync_members w)) = sheet w ++ new ∧
    column 3 (sheet (snd (sync_members w))) =
      column 3 (sheet w) ++ map identity new ∧
    ∀ j r, new !! j = Some r →
      ∃ m,
        m ∈ roster w ∧
        r = [display_name m; name m; str (member_id m);
             display_avatar_url m;
             strftime (clock w (reads w + j)%nat)] ∧
        length r = 5%nat ∧
        (reads w + j < reads (snd (sync_members w)))%nat ∧
        is_timestamp (strftime (clock w (reads w + j)%nat)) = true ∧
        r !! 2%nat = Some (str (member_id m)) ∧
        column 3 [r] = [str (member_id m)] ∧
        (str (member_id m) ∉ column 3 (sheet w)).
Proof.
  intros Hclk. exists (new_rows w).
  destruct (run_summary w) as (Hsheet & _). split; [done|]. split.
  { by rewrite Hsheet, column_app. }
  intros j r Hr.
  pose proof (lookup_lt_Some _ _ _ Hr) as Hj.
  pose proof (run_reads w) as Hreads.
  unfold new_rows in Hr.
  apply lookup_stamped in Hr as (m & Hm & ->).
  apply list_elem_of_lookup_2, subseteq_take in Hm.
  pose proof (novel_not_seen _ _ _ Hm) as Hnew.
  rewrite elem_of_known in Hnew.
  apply elem_of_novel in Hm.
  exists m. repeat split; try done;
    [unfold Row in *; lia | by apply strftime_format].
Qed.

Lemma ticking_valid n : valid_datetime (ticking n).
Proof.
  unfold valid_datetime, ticking. simpl.
  pose proof (Nat.mod_upper_bound n 60). lia.
Qed.

Lemma appended_rows_layout_witness :
  (∀ n, valid_datetime (clock world_B n)) ∧
  ∃ new,
    sheet (snd (sync_members world_B)) = sheet world_B ++ new ∧
    column 3 (sheet (snd (sync_members world_B))) =
      column 3 (sheet world_B) ++ map identity new ∧
    ∀ j r, new !! j = Some r →
      ∃ m,
        m ∈ roster world_B ∧
        r = [display_name m; name m; str (member_id m);
             display_avatar_url m;
             strftime (clock world_B (reads world_B + j)%nat)] ∧
        length r = 5%nat ∧
        (reads world_B + j < reads (snd (sync_members world_B)))%nat ∧
        is_timestamp (strftime (clock world_B (reads world_B + j)%nat))
          = true ∧
        r !! 2%nat = Some (str (member_id m)) ∧
        column 3 [r] = [str (member_id m)] ∧
        (str (member_id m) ∉ column 3 (sheet world_B)).
Proof.
  assert (∀ n, valid_datetime (clock world_B n)) as H
    by exact ticking_valid.
  split; [exact H|].
  exact (appended_rows_layout world_B H).
Defined.

(** C9 (exact string match). For a run that returns normally and a
    member of the roster, the run appends no row for the member when
    some cell of column 3 is equal, as a string, to the decimal string
    [str(member.id)], and one row otherwise: a cell that is not that
    very string (blanks around the number, leading zeros, a sign, a
    fraction) does not represent the member. Distinct identities have
    distinct strings. *)
Theorem dedup_is_exact_string_match w w' g m :
  guild w = Some g →
  sync_members w = (Ok tt, w') →
  m ∈ members g →
  ∃ new,
    sheet w' = sheet w ++ new ∧
    length (rows_for (str (member_id m)) new) =
      (if bool_decide (str (member_id m) ∈ column 3 (sheet w))
       then 0%nat else 1%nat) ∧
    ((∀ cell, cell ∈ column 3 (sheet w) → cell ≠ str (member_id m)) →
     length (rows_for (str (member_id m)) new) = 1%nat) ∧
    (∀ m', member_id m' ≠ member_id m →
           str (member_id m') ≠ str (member_id m)).
Proof.
  intros Hg Hrun Hm.
  pose proof (run_summary w) as (Hsheet & _ & _ & Hres).
  rewrite Hrun in Hsheet, Hres. simpl in Hsheet, Hres.
  destruct Hres as (He & _).
  assert (length (rows_for (str (member_id m)) (new_rows w)) =
          if bool_decide (str (member_id m) ∈ column 3 (sheet w))
          then 0%nat else 1%nat) as Hcount.
  { fold (uid_of m).
    by rewrite (new_rows_count w _ He), (due_member w g m Hg Hm). }
  exists (new_rows w). split; [done|]. split; [done|]. split.
  - intros Hdiff. rewrite Hcount, bool_decide_eq_false_2; [done|].
    intros Hin. by apply (Hdiff _ Hin).
  - intros m' Hne Heq. apply Hne. unfold str in Heq.
    by apply (inj pretty) in Heq.
Qed.

Lemma dedup_is_exact_string_match_witness :
  guild world_D =
    Some {| guild_name := "Test"; guild_id := 77; members := [carol] |} ∧
  sync_members world_D = (Ok tt, snd (sync_members world_D)) ∧
  carol ∈ [carol] ∧
  ∃ new,
    sheet (snd (sync_members world_D)) = sheet world_D ++ new ∧
    length (rows_for (str (member_id carol)) new) =
      (if bool_decide (str (member_id carol) ∈ column 3 (sheet world_D))
       then 0%nat else 1%nat) ∧
    ((∀ cell, cell ∈ column 3 (sheet world_D) →
              cell ≠ str (member_id carol)) →
     length (rows_for (str (member_id carol)) new) = 1%nat) ∧
    (∀ m', member_id m' ≠ member_id carol →
           str (member_id m') ≠ str (member_id carol)).
Proof.
  assert (guild world_D =
    Some {| guild_name := "Test"; guild_id := 77; members := [carol] |})
    as H1 by reflexivity.
  assert (sync_members world_D = (Ok tt, snd (sync_members world_D))) as H2
    by (vm_compute; reflexivity).
  assert (carol ∈ [carol]) as H3 by left.
  split; [exact H1|]. split; [exact H2|]. split; [exact H3|].
  exact (dedup_is_exact_string_match world_D _ _ carol H1 H2 H3).
Defined.

Example near_misses_do_not_count :
  str 42 = "42" ∧
  column 3 (sheet (snd (sync_members world_D))) =
    [" 42"; "042"; "42.0"; "+42"; "42"].
Proof. vm_compute. split; reflexivity. Qed.

(** ** Further properties of the reconciler *)

(** Sleeping and printing of one run. *)
Lemma run_accounting w :
  let r := sync_members w in
  slept (snd r) = (slept w + appends w)%nat ∧
  match guild w, fst r with
  | None, _ => console (snd r) = console w ++ [not_found_line]
  | Some g, Ok _ =>
      ∃ tl, console (snd r) =
              console w ++ [fetching_line g;
                            complete_line (Z.of_nat (appends w))] ++ tl ∧
            (tl = [] ∨ ∃ msg, tl = ["[log] failed: " +:+ msg])
  | Some g, Raise _ => console (snd r) = console w ++ [fetching_line g]
  end.
Proof.
  cbv zeta. destruct (guild w) as [g|] eqn:Hg.
  - rewrite (sync_members_resolved w g Hg).
    destruct (faults w) as [|[] fs] eqn:Hf.
    1,3: destruct (decide (appends w = length (pending w))) as [He|He].
    1,3: set (w3 := set_console _ _);
         pose proof (write_log_frame "sync" (Z.of_nat (length (pending w))) w3)
           as (_ & _ & _ & _ & Hsl);
         pose proof (write_log_console "sync"
                       (Z.of_nat (length (pending w))) w3) as Hco;
         rewrite (write_log_returns "sync" _ w3), Hsl;
         subst w3; simpl in *; rewrite He;
         (split; [done|]);
         destruct Hco as [->|[msg ->]];
         [ exists []; split; [done|by left]
         | exists ["[log] failed: " +:+ msg];
           split; [by rewrite <- app_assoc|right; by exists msg] ].
    1,2: simpl; split; done.
    unfold appends. rewrite Hg, Hf. simpl. split; [lia|done].
  - rewrite (sync_members_unresolved w Hg). unfold appends. rewrite Hg.
    simpl. split; [lia|done].
Qed.

(** X1 (pacing). Whatever the outcome of a run, it sleeps one second for
    each row it appends and not otherwise: the seconds slept grow by the
    number of appended rows. *)
Theorem one_second_per_appended_row w :
  ∃ new,
    sheet (snd (sync_members w)) = sheet w ++ new ∧
    slept (snd (sync_members w)) = (slept w + length new)%nat.
Proof.
  exists (new_rows w). split; [apply (run_summary w)|].
  rewrite length_new_rows. apply (run_accounting w).
Qed.

(** X2 (console report). A run that returns normally for a guild that
    resolves prints the line that names the guild, then the line
    "[sync] complete – N new rows" where N is the number of rows it
    appended, and after these at most the one line of a swallowed failure
    of the log write. *)
Theorem complete_line_counts_appended_rows w w' g :
  guild w = Some g →
  sync_members w = (Ok tt, w') →
  ∃ new tl,
    sheet w' = sheet w ++ new ∧
    console w' =
      console w ++ [fetching_line g;
                    complete_line (Z.of_nat (length new))] ++ tl ∧
    (tl = [] ∨ ∃ msg, tl = ["[log] failed: " +:+ msg]).
Proof.
  intros Hg Hrun.
  pose proof (run_summary w) as (Hsheet & _).
  pose proof (run_accounting w) as (_ & Hco).
  rewrite Hrun, Hg in *. simpl in *.
  destruct Hco as (tl & Hco & Htl).
  exists (new_rows w), tl. by rewrite length_new_rows.
Qed.

Lemma complete_line_counts_appended_rows_witness :
  guild world_B = Some two_members ∧
  sync_members world_B = (Ok tt, snd (sync_members world_B)) ∧
  ∃ new tl,
    sheet (snd (sync_members world_B)) = sheet world_B ++ new ∧
    console (snd (sync_members world_B)) =
      console world_B ++ [fetching_line two_members;
                          complete_line (Z.of_nat (length new))] ++ tl ∧
    (tl = [] ∨ ∃ msg, tl = ["[log] failed: " +:+ msg]).
Proof.
  assert (guild world_B = Some two_members) as H1 by reflexivity.
  assert (sync_members world_B = (Ok tt, snd (sync_members world_B))) as H2
    by (vm_compute; reflexivity).
  split; [exact H1|]. split; [exact H2|].
  exact (complete_line_counts_appended_rows world_B _ two_members H1 H2).
Defined.

(** X3 (failed read of column 3). When [sheet.col_values(3)] raises, the
    error leaves [sync_members] before any member is looked at: the line
    that names the guild has been printed and one external call was
    made; the sheet, the log file, the clock and the seconds slept are
    what they were. *)
Theorem failed_column_read_aborts_run w g rest :
  guild w = Some g →
  faults w = true :: rest →
  sync_members w =
    (Raise (APIError "col_values"),
     set_faults rest (set_console (console w ++ [fetching_line g]) w)).
Proof.
  intros Hg Hf. by rewrite (sync_members_resolved w g Hg), Hf.
Qed.

Lemma failed_column_read_aborts_run_witness :
  guild (world0 (Some two_members) [] None [true; false]) =
    Some two_members ∧
  faults (world0 (Some two_members) [] None [true; false]) = true :: [false] ∧
  sync_members (world0 (Some two_members) [] None [true; false]) =
    (Raise (APIError "col_values"),
     set_faults [false]
       (set_console
          (console (world0 (Some two_members) [] None [true; false])
           ++ [fetching_line two_members])
          (world0 (Some two_members) [] None [true; false]))).
Proof.
  split; [reflexivity|]. split; [reflexivity|].
  exact (failed_column_read_aborts_run
           (world0 (Some two_members) [] None [true; false])
           two_members [false] eq_refl eq_refl).
Defined.

Lemma novel_sublist ms seen : novel ms seen `sublist_of` ms.
Proof.
  revert seen. induction ms as [|m rest IH]; intros seen; simpl.
  - constructor.
  - case_bool_decide; [apply sublist_cons|apply sublist_skip]; apply IH.
Qed.

(** X4 (order of the rows). Whatever the outcome of a run, the
    identities of the rows it appends, in the order of the sheet, are a
    subsequence of the identities of the roster in the order
    [guild.members] gives them. *)
Theorem appended_rows_follow_roster_order w :
  ∃ new,
    sheet (snd (sync_members w)) = sheet w ++ new ∧
    map identity new `sublist_of` map (λ m, str (member_id m)) (roster w).
Proof.
  exists (new_rows w). split; [apply (run_summary w)|].
  unfold new_rows.
  change (map identity ?l) with (column 3 l). rewrite column_stamped.
  apply fmap_sublist. etrans; [apply sublist_take|apply novel_sublist].
Qed.

(** X5 (nothing to do). When every member of the roster is already in
    column 3, as when the roster is empty, a run that meets no failure
    appends nothing and does not sleep, and still records a "sync" entry,
    with [member_count] 0. *)
Theorem run_with_nothing_new_logs_zero w g old :
  guild w = Some g →
  (∀ m, m ∈ members g → str (member_id m) ∈ column 3 (sheet w)) →
  faults w = [] →
  journal (log_file w) = Some old →
  fst (sync_members w) = Ok tt ∧
  sheet (snd (sync_members w)) = sheet w ∧
  slept (snd (sync_members w)) = slept w ∧
  log_file (snd (sync_members w)) =
    Some (Json (JList (take 100
      (log_entry (strftime (clock w (reads w))) "sync" 0 :: old)))).
Proof.
  intros Hg Hall Hf Hj.
  assert (pending w = []) as Hp.
  { unfold pending, roster. rewrite Hg. apply novel_nil.
    intros m Hm. apply elem_of_known. by apply Hall. }
  assert (new_rows w = []) as Hn.
  { unfold new_rows. by rewrite Hp, take_nil. }
  destruct (run_without_faults w old Hf) as [Hok Hlog]; [by eexists|done|].
  destruct (run_summary w) as (Hsheet & _).
  destruct (run_accounting w) as (Hsl & _).
  rewrite <- length_new_rows in Hsl.
  unfold sync_entry in Hlog. rewrite Hn in *. simpl in *.
  rewrite app_nil_r in Hsheet. rewrite !Nat.add_0_r in *. done.
Qed.

Lemma run_with_nothing_new_logs_zero_witness :
  guild (world0 (Some two_members) sheet_AB None []) = Some two_members ∧
  (∀ m, m ∈ members two_members →
        str (member_id m) ∈
          column 3 (sheet (world0 (Some two_members) sheet_AB None []))) ∧
  faults (world0 (Some two_members) sheet_AB None []) = [] ∧
  journal (log_file (world0 (Some two_members) sheet_AB None [])) = Some [] ∧
  let w := world0 (Some two_members) sheet_AB None [] in
  fst (sync_members w) = Ok tt ∧
  sheet (snd (sync_members w)) = sheet w ∧
  slept (snd (sync_members w)) = slept w ∧
  log_file (snd (sync_members w)) =
    Some (Json (JList (take 100
      (log_entry (strftime (clock w (reads w))) "sync" 0 :: [])))).
Proof.
  assert (∀ m, m ∈ members two_members →
        str (member_id m) ∈
          column 3 (sheet (world0 (Some two_members) sheet_AB None [])))
    as H2.
  { intros m Hm. simpl in Hm.
    apply elem_of_cons in Hm as [->|Hm]; [left|].
    apply elem_of_cons in Hm as [->|Hm]; [right; left|].
    by apply elem_of_nil in Hm. }
  split; [reflexivity|]. split; [exact H2|].
  split; [reflexivity|]. split; [reflexivity|].
  exact (run_with_nothing_new_logs_zero
           (world0 (Some two_members) sheet_AB None []) two_members []
           eq_refl H2 eq_refl eq_refl).
Defined.

Lemma novel_single ms seen m :
  m ∈ ms →
  uid_of m ∉ seen →
  (∀ m', m' ∈ ms → m' = m ∨ uid_of m' ∈ seen) →
  novel ms seen = [m].
Proof.
  induction ms as [|m0 rest IH]; intros Hm Hnew Hothers; simpl.
  - by apply elem_of_nil in Hm.
  - destruct (decide (uid_of m0 ∈ seen)) as [Hin|Hin].
    + rewrite (bool_decide_eq_true_2 _ Hin). apply IH; [|done|].
      * apply elem_of_cons in Hm as [->|Hm]; [done|done].
      * intros m' Hm'. apply Hothers. by right.
    + rewrite (bool_decide_eq_false_2 _ Hin).
      destruct (Hothers m0) as [->|?]; [by left| |done].
      f_equal. apply novel_nil. intros m' Hm'.
      destruct (Hothers m') as [->|?]; [by right|set_solver..].
Qed.

(** X6 (a member joins). A join event for the watched guild runs the
    reconciler whoever the event is about. When the roster then holds
    one member [m] that column 3 lacks, all the others being there, and
    the handler returns normally, the sheet has gained exactly the row of
    [m], stamped with the first reading of the clock. *)
Theorem join_appends_the_row_of_the_new_member gid ev w w' g m :
  guild_id (join_guild ev) = gid →
  guild w = Some g →
  m ∈ members g →
  str (member_id m) ∉ column 3 (sheet w) →
  (∀ m', m' ∈ members g →
         m' = m ∨ str (member_id m') ∈ column 3 (sheet w)) →
  on_member_join gid ev w = (Ok tt, w') →
  sheet w' =
    sheet w ++ [ [display_name m; name m; str (member_id m);
                  display_avatar_url m; strftime (clock w (reads w))] ].
Proof.
  intros Hev Hg Hm Hnew Hothers Hrun.
  unfold on_member_join in Hrun. rewrite bool_decide_eq_true_2 in Hrun by done.
  assert (pending w = [m]) as Hp.
  { unfold pending, roster. rewrite Hg. apply novel_single; [done|..].
    - by rewrite elem_of_known.
    - intros m' Hm'. rewrite elem_of_known. by apply Hothers. }
  pose proof (run_summary w) as (Hsheet & _ & _ & Hres).
  rewrite Hrun in Hsheet, Hres. simpl in Hsheet, Hres.
  destruct Hres as (He & _).
  rewrite Hsheet. unfold new_rows. by rewrite He, Hp.
Qed.

(** A join in a guild other than the watched one is ignored. *)
Lemma join_elsewhere_is_ignored gid ev w :
  guild_id (join_guild ev) ≠ gid → on_member_join gid ev w = (Ok tt, w).
Proof.
  intros Hne. unfold on_member_join. by rewrite bool_decide_eq_false_2.
Qed.

Lemma join_appends_the_row_of_the_new_member_witness :
  guild_id (join_guild bob_joins) = 77 ∧
  guild world_B = Some two_members ∧
  bob ∈ members two_members ∧
  (str (member_id bob) ∉ column 3 (sheet world_B)) ∧
  (∀ m', m' ∈ members two_members →
         m' = bob ∨ str (member_id m') ∈ column 3 (sheet world_B)) ∧
  on_member_join 77 bob_joins world_B =
    (Ok tt, snd (on_member_join 77 bob_joins world_B)) ∧
  sheet (snd (on_member_join 77 bob_joins world_B)) =
    sheet world_B ++ [ [display_name bob; name bob; str (member_id bob);
                        display_avatar_url bob;
                        strftime (clock world_B (reads world_B))] ].
Proof.
  assert (bob ∈ members two_members) as H3 by (right; left).
  assert (str (member_id bob) ∉ column 3 (sheet world_B)) as H4
    by (apply (bool_decide_unpack _); vm_compute; exact I).
  assert (∀ m', m' ∈ members two_members →
         m' = bob ∨ str (member_id m') ∈ column 3 (sheet world_B)) as H5.
  { intros m' Hm'. simpl in Hm'.
    apply elem_of_cons in Hm' as [->|Hm']; [right; left|].
    apply elem_of_cons in Hm' as [->|Hm']; [by left|].
    by apply elem_of_nil in Hm'. }
  assert (on_member_join 77 bob_joins world_B =
    (Ok tt, snd (on_member_join 77 bob_joins world_B))) as H6
    by (vm_compute; reflexivity).
  split; [reflexivity|]. split; [reflexivity|]. split; [exact H3|].
  split; [exact H4|]. split; [exact H5|]. split; [exact H6|].
  exact (join_appends_the_row_of_the_new_member 77 bob_joins world_B _
           two_members bob eq_refl eq_refl H3 H4 H5 H6).
Defined.

Lemma rows_for_present uid (rows : list Row) :
  uid ∈ column 3 rows → (1 ≤ length (rows_for uid rows))%nat.
Proof.
  unfold rows_for, column. induction rows as [|r rows IH]; simpl.
  - by intros ?%elem_of_nil.
  - intros Hin. rewrite filter_cons.
    destruct (decide (identity r = uid)) as [He|He]; simpl; [lia|].
    apply IH. apply elem_of_cons in Hin as [Hin|Hin]; [|done].
    by destruct He.
Qed.

(** X7 (a rerun repairs a broken batch). Let a first run end in any way,
    also by an append that failed in the middle of the batch, and let a
    second run start from the sheet the first one left, with the same
    roster, and return normally. Then the sheet holds exactly one row
    for every member of the roster that column 3 lacked before the
    first run: what the first run wrote is not written again, what it
    missed is. *)
Theorem rerun_completes_a_failed_batch w w2 m :
  m ∈ roster w →
  str (member_id m) ∉ column 3 (sheet w) →
  guild w2 = guild w →
  sheet w2 = sheet (snd (sync_members w)) →
  fst (sync_members w2) = Ok tt →
  length (rows_for (str (member_id m)) (sheet (snd (sync_members w2))))
    = 1%nat.
Proof.
  intros Hm Hnew Hg Hs Hok. fold (uid_of m) in *.
  destruct (run_summary w) as (Hsheet & _).
  pose proof (run_summary w2) as (Hsheet2 & _ & _ & Hres).
  rewrite Hok in Hres. destruct Hres as (He & _).
  assert (roster w2 = roster w) as Hr by (unfold roster; by rewrite Hg).
  pose proof (new_rows_count w2 (uid_of m) He) as Hc2.
  unfold due in Hc2. rewrite Hr in Hc2.
  rewrite (bool_decide_eq_true_2 (uid_of m ∈ map uid_of (roster w))) in Hc2
    by by apply list_elem_of_fmap_2.
  pose proof (new_rows_count_le w (uid_of m)) as Hc1.
  pose proof (due_le_1 w (uid_of m)) as Hd1.
  rewrite Hsheet2, Hs, Hsheet, !rows_for_app, !length_app.
  rewrite (rows_for_absent _ (sheet w)) by done. simpl.
  rewrite Hs, Hsheet, column_app in Hc2.
  destruct (decide (uid_of m ∈ column 3 (new_rows w))) as [Hin|Hin].
  - rewrite bool_decide_eq_true_2 in Hc2 by (apply elem_of_app; by right).
    pose proof (rows_for_present _ _ Hin). lia.
  - rewrite bool_decide_eq_false_2 in Hc2
      by (intros [?|?]%elem_of_app; done).
    rewrite (rows_for_absent _ (new_rows w)) by done. simpl. lia.
Qed.

Lemma rerun_completes_a_failed_batch_witness :
  bob ∈ roster world_F ∧
  (str (member_id bob) ∉ column 3 (sheet world_F)) ∧
  guild (set_faults [] (snd (sync_members world_F))) = guild world_F ∧
  sheet (set_faults [] (snd (sync_members world_F))) =
    sheet (snd (sync_members world_F)) ∧
  fst (sync_members (set_faults [] (snd (sync_members world_F)))) = Ok tt ∧
  length (rows_for (str (member_id bob))
            (sheet (snd (sync_members
                           (set_faults [] (snd (sync_members world_F)))))))
    = 1%nat.
Proof.
  assert (bob ∈ roster world_F) as H1 by (right; left).
  assert (str (member_id bob) ∉ column 3 (sheet world_F)) as H2
    by (apply (bool_decide_unpack _); vm_compute; exact I).
  assert (guild (set_faults [] (snd (sync_members world_F))) =
          guild world_F) as H3 by (vm_compute; reflexivity).
  assert (fst (sync_members (set_faults [] (snd (sync_members world_F)))) =
          Ok tt) as H5 by (vm_compute; reflexivity).
  assert (sheet (set_faults [] (snd (sync_members world_F))) =
          sheet (snd (sync_members world_F))) as H4
    by (vm_compute; reflexivity).
  split; [exact H1|]. split; [exact H2|]. split; [exact H3|].
  split; [exact H4|]. split; [exact H5|].
  exact (rerun_completes_a_failed_batch world_F _ bob H1 H2 H3 H4 H5).
Defined.

(** ** Further properties of the execution log *)

(** X8 (shape of a successful write). When no file operation fails and
    the log file is absent or holds the array [old], the file then holds
    the new entry followed by the first 99 entries of [old] in their
    order: [min 100 (1 + length old)] entries, so that a file that held
    more than 100 entries is cut down to 100 by one write, and a missing
    file is created with the one entry. *)
Theorem write_log_puts_entry_first status member_count w old :
  faults w = [] →
  journal (log_file w) = Some old →
  log_file (snd (write_log status member_count w)) =
    Some (Json (JList
      (log_entry (strftime (clock w (reads w))) status member_count
       :: take 99 old))) ∧
  length (log_entry (strftime (clock w (reads w))) status member_count
          :: take 99 old) = (100 `min` S (length old))%nat.
Proof.
  intros Hf Hj.
  destruct (write_log_records status member_count w old Hf Hj) as [-> _].
  split; [done|]. cbn [length]. rewrite length_take. lia.
Qed.

Lemma write_log_puts_entry_first_witness :
  faults (world0 None [] (Some (Json (JList long_log))) []) = [] ∧
  journal (log_file (world0 None [] (Some (Json (JList long_log))) [])) =
    Some long_log ∧
  let w := world0 None [] (Some (Json (JList long_log))) [] in
  log_file (snd (write_log "starting" 0 w)) =
    Some (Json (JList
      (log_entry (strftime (clock w (reads w))) "starting" 0
       :: take 99 long_log))) ∧
  length (log_entry (strftime (clock w (reads w))) "starting" 0
          :: take 99 long_log) = (100 `min` S (length long_log))%nat.
Proof.
  split; [reflexivity|]. split; [reflexivity|].
  exact (write_log_puts_entry_first "starting" 0
           (world0 None [] (Some (Json (JList long_log))) []) long_log
           eq_refl eq_refl).
Defined.

Lemma write_log_corrupt status member_count w :
  corrupt (log_file w) →
  fst (write_log status member_count w) = Ok tt ∧
  log_file (snd (write_log status member_count w)) = log_file w.
Proof.
  intros Hc.
  destruct (write_log_unreadable status member_count w) as [msg ->]; [|done].
  unfold read_fails. by destruct (log_file w) as [[]|].
Qed.

Lemma log_events_corrupt evs w :
  corrupt (log_file w) →
  fst (log_events evs w) = Ok tt ∧
  log_file (snd (log_events evs w)) = log_file w.
Proof.
  revert w. induction evs as [|[s c] rest IH]; intros w Hc; [done|].
  simpl. unfold bind.
  destruct (write_log_corrupt s c w Hc) as [Hok Hfile].
  destruct (write_log s c w) as [r w1]. simpl in *. subst r.
  rewrite <- Hfile in Hc. destruct (IH w1 Hc) as [-> ->]. done.
Qed.

Lemma run_corrupt w :
  corrupt (log_file w) →
  log_file (snd (sync_members w)) = log_file w.
Proof.
  intros Hc. destruct (guild w) as [g|] eqn:Hg.
  - rewrite (sync_members_resolved w g Hg).
    destruct (faults w) as [|[] fs]; try done;
      (destruct (decide _); [|done]);
      set (w3 := set_console _ _);
      by destruct (write_log_corrupt "sync"
                     (Z.of_nat (length (pending w))) w3) as [_ ->].
  - by rewrite (sync_members_unresolved w Hg).
Qed.

(** X9 (a corrupt log is never repaired). Once the log file exists and
    does not hold JSON, no call of [write_log] and no run of the
    reconciler changes it: every later entry is dropped, and each call
    still returns normally. *)
Theorem corrupt_log_stays_corrupt w :
  corrupt (log_file w) →
  (∀ evs, fst (log_events evs w) = Ok tt ∧
          log_file (snd (log_events evs w)) = log_file w) ∧
  log_file (snd (sync_members w)) = log_file w.
Proof.
  intros Hc. split; [intros evs; by apply log_events_corrupt|].
  by apply run_corrupt.
Qed.

Lemma corrupt_log_stays_corrupt_witness :
  corrupt (log_file world_G) ∧
  (∀ evs, fst (log_events evs world_G) = Ok tt ∧
          log_file (snd (log_events evs world_G)) = log_file world_G) ∧
  log_file (snd (sync_members world_G)) = log_file world_G.
Proof.
  assert (corrupt (log_file world_G)) as H by exact I.
  split; [exact H|]. exact (corrupt_log_stays_corrupt world_G H).
Defined.

(** X10 (a failed dump destroys the log). When the log file is absent or
    holds an array, and the dump fails after the file was opened for
    writing, [write_log] returns normally but the file is left torn: the
    old entries are gone, the console gains the one line that reports
    the error, and since a torn file cannot be read, every later call of
    [write_log] leaves it torn. *)
Theorem failed_dump_tears_the_log status member_count w old rest :
  journal (log_file w) = Some old →
  faults w = dump_fails w rest →
  let w' := snd (write_log status member_count w) in
  fst (write_log status member_count w) = Ok tt ∧
  log_file w' = Some Torn ∧
  (∃ msg, console w' = console w ++ ["[log] failed: " +:+ msg]) ∧
  ∀ evs, log_file (snd (log_events evs w')) = Some Torn.
Proof.
  intros Hj Hf w'.
  assert (fst (write_log status member_count w) = Ok tt ∧
          log_file w' = Some Torn ∧
          ∃ msg, console w' = console w ++ ["[log] failed: " +:+ msg])
    as (H1 & H2 & H3).
  { subst w'. unfold dump_fails in Hf.
    destruct w as [g sh lf co cl rd sl fs]. simpl in *. subst fs.
    destruct lf as [[[]| |]|]; simpl in Hj; try discriminate;
      (split; [done|]); (split; [done|]); by eexists. }
  split; [done|]. split; [done|]. split; [done|].
  intros evs. destruct (log_events_corrupt evs w') as [_ ->]; [|done].
  by rewrite H2.
Qed.

Lemma failed_dump_tears_the_log_witness :
  journal (log_file world_C) =
    Some [log_entry "2024-05-07 09:00:00" "starting" 0] ∧
  faults (set_faults [false; false; true] world_C) =
    dump_fails (set_faults [false; false; true] world_C) [] ∧
  let w := set_faults [false; false; true] world_C in
  let w' := snd (write_log "sync" 2 w) in
  fst (write_log "sync" 2 w) = Ok tt ∧
  log_file w' = Some Torn ∧
  (∃ msg, console w' = console w ++ ["[log] failed: " +:+ msg]) ∧
  ∀ evs, log_file (snd (log_events evs w')) = Some Torn.
Proof.
  split; [reflexivity|]. split; [reflexivity|].
  exact (failed_dump_tears_the_log "sync" 2
           (set_faults [false; false; true] world_C) _ [] eq_refl eq_refl).
Defined.

(** X11 (a log that is not an array). When the log file holds valid
    JSON that is not an array, an object say, and can be opened, the
    value has no [insert]: the [AttributeError] is swallowed, the file is
    left as it is, the entry is dropped and the console names the type
    Python gives the value. *)
Theorem non_array_log_is_left_untouched status member_count w v :
  log_file w = Some (Json v) →
  (∀ l, v ≠ JList l) →
  head (faults w) ≠ Some true →
  let w' := snd (write_log status member_count w) in
  fst (write_log status member_count w) = Ok tt ∧
  log_file w' = log_file w ∧
  console w' =
    console w ++ ["[log] failed: '" +:+ type_name v
                  +:+ "' object has no attribute 'insert'"].
Proof.
  intros Hv Hna Hopen.
  destruct w as [g sh lf co cl rd sl fs]. simpl in *. subst lf.
  unfold write_log, try_except, bind, utcnow, path_exists, open_read,
    json_load, insert_front, fallible, print, raise.
  destruct fs as [|[] fs]; simpl in *; [|done|];
    destruct v; simpl; try done; by destruct (Hna l).
Qed.

Lemma non_array_log_is_left_untouched_witness :
  log_file world_O = Some (Json (JDict [("entries", JList [])])) ∧
  (∀ l, JDict [("entries", JList [])] ≠ JList l) ∧
  head (faults world_O) ≠ Some true ∧
  let w' := snd (write_log "sync" 1 world_O) in
  fst (write_log "sync" 1 world_O) = Ok tt ∧
  log_file w' = log_file world_O ∧
  console w' =
    console world_O ++
    ["[log] failed: '" +:+ type_name (JDict [("entries", JList [])])
     +:+ "' object has no attribute 'insert'"].
Proof.
  assert (∀ l, JDict [("entries", JList [])] ≠ JList l) as H2 by done.
  assert (head (faults world_O) ≠ Some true) as H3 by done.
  split; [reflexivity|]. split; [exact H2|]. split; [exact H3|].
  exact (non_array_log_is_left_untouched "sync" 1 world_O _ eq_refl H2 H3).
Defined.

(** ** Start-up *)

(** X12 (cold start). The main block logs "starting" and the ready
    event then runs the reconciler. When no external call fails, the
    guild resolves and the log file was absent or held the array [old],
    the log file then starts with the "sync" entry of the first run,
    which counts the rows that run appended, followed by the "starting"
    entry with count 0 and then the old entries, cut to 100. *)
Theorem cold_start_logs_starting_then_sync user w old :
  faults w = [] →
  is_Some (guild w) →
  journal (log_file w) = Some old →
  let r := (log_starting ;; on_ready user) w in
  ∃ new,
    fst r = Ok tt ∧
    sheet (snd r) = sheet w ++ new ∧
    log_file (snd r) =
      Some (Json (JList (take 100
        (log_entry (strftime (clock w (S (reads w) + length new)%nat))
           "sync" (Z.of_nat (length new))
         :: log_entry (strftime (clock w (reads w))) "starting" 0
         :: old)))).
Proof.
  intros Hf Hg Hj. cbv zeta.
  destruct (write_log_records "starting" 0 w old Hf Hj) as [Hfile Hf1].
  pose proof (write_log_frame "starting" 0 w) as (Hg1 & Hs1 & Hc1 & Hr1 & _).
  pose proof (write_log_returns "starting" 0 w) as Hok.
  set (w1 := snd (write_log "starting" 0 w)) in *.
  set (w2 := set_console (console w1 ++ [ready_line user]) w1).
  assert ((log_starting ;; on_ready user) w = sync_members w2) as ->.
  { unfold log_starting, on_ready, bind, print.
    rewrite (surjective_pairing (write_log "starting" 0 w)), Hok.
    reflexivity. }
  destruct (run_without_faults w2 (take 100 (entry_at w "starting" 0 :: old)))
    as [Hok2 Hlog2];
    [ done | by rewrite <- Hg1 in Hg
    | change (log_file w2) with (log_file w1); rewrite Hfile; reflexivity | ].
  destruct (run_summary w2) as (Hsheet2 & _).
  exists (new_rows w2). split; [done|]. split.
  { rewrite Hsheet2. cbn [sheet w2 set_console]. by rewrite Hs1. }
  rewrite Hlog2. unfold sync_entry. cbn [clock reads w2 set_console].
  rewrite Hc1, Hr1. do 3 f_equal.
  apply (take_app_take 100 [_] (entry_at w "starting" 0 :: old)).
Qed.

Lemma cold_start_logs_starting_then_sync_witness :
  faults world_B = [] ∧
  is_Some (guild world_B) ∧
  journal (log_file world_B) = Some [] ∧
  let r := (log_starting ;; on_ready "sync-bot#0001") world_B in
  ∃ new,
    fst r = Ok tt ∧
    sheet (snd r) = sheet world_B ++ new ∧
    log_file (snd r) =
      Some (Json (JList (take 100
        (log_entry
           (strftime (clock world_B (S (reads world_B) + length new)%nat))
           "sync" (Z.of_nat (length new))
         :: log_entry (strftime (clock world_B (reads world_B)))
              "starting" 0
         :: [])))).
Proof.
  assert (is_Some (guild world_B)) as H2 by (by eexists).
  split; [reflexivity|]. split; [exact H2|]. split; [reflexivity|].
  exact (cold_start_logs_starting_then_sync "sync-bot#0001" world_B []
           eq_refl H2 eq_refl).
Defined.

Example cold_start_B :
  log_file (snd ((log_starting ;; on_ready "sync-bot#0001") world_B)) =
    Some (Json (JList [log_entry "2024-05-07 09:03:02" "sync" 1;
                       log_entry "2024-05-07 09:03:00" "starting" 0])).
Proof. vm_compute. reflexivity. Qed.

(** ** Configuration *)

(** X13 (when the configuration loads). The settings load exactly when
    the four required keys are in the environment and the text of
    DISCORD_GUILD_ID is an integer; SHEET_NAME and LOG_FILE are never
    needed. *)
Theorem load_config_succeeds_iff int (environ : gmap string string) :
  (∃ cfg, load_config int environ = inr cfg) ↔
  is_Some (environ !! "DISCORD_TOKEN") ∧
  (∃ raw, environ !! "DISCORD_GUILD_ID" = Some raw ∧ is_Some (int raw)) ∧
  is_Some (environ !! "SPREADSHEET_ID") ∧
  is_Some (environ !! "GOOGLE_CREDENTIALS_JSON").
Proof.
  unfold load_config, and_then, environ_get.
  destruct (environ !! "DISCORD_TOKEN") as [token|];
    [|split; [by intros [? ?]|by intros [[? ?] _]]].
  destruct (environ !! "DISCORD_GUILD_ID") as [raw|];
    [|split; [by intros [? ?]|by intros (_ & (? & ? & _) & _)]].
  destruct (int raw) as [gid|] eqn:Hint;
    [|split; [by intros [? ?]|]].
  2:{ intros (_ & (raw' & [= <-] & [? Hi]) & _). congruence. }
  destruct (environ !! "SPREADSHEET_ID") as [sid|];
    [|split; [by intros [? ?]|by intros (_ & _ & [? ?] & _)]].
  destruct (environ !! "GOOGLE_CREDENTIALS_JSON") as [b64|];
    [|split; [by intros [? ?]|by intros (_ & _ & _ & [? ?])]].
  split; [|by eexists].
  intros _. repeat split; eauto.
Qed.

(** X14 (what the configuration holds). When the settings load, each
    required setting is the value of its key, the guild identity is the
    integer its text denotes, and the two optional settings are the
    value of their key when it is set and the default otherwise:
    "Discordリスト" for the worksheet and "bot_execution_log.json" for
    the log file. *)
Theorem load_config_fields int (environ : gmap string string) cfg :
  load_config int environ = inr cfg →
  environ !! "DISCORD_TOKEN" = Some (TOKEN cfg) ∧
  (∃ raw, environ !! "DISCORD_GUILD_ID" = Some raw ∧
          int raw = Some (GUILD_ID cfg)) ∧
  environ !! "SPREADSHEET_ID" = Some (SPREADSHEET_ID cfg) ∧
  environ !! "GOOGLE_CREDENTIALS_JSON" = Some (json_b64 cfg) ∧
  SHEET_NAME cfg = default "Discordリスト" (environ !! "SHEET_NAME") ∧
  LOG_FILE cfg = default "bot_execution_log.json" (environ !! "LOG_FILE").
Proof.
  unfold load_config, and_then, environ_get, getenv.
  destruct (environ !! "DISCORD_TOKEN") as [token|]; [|done].
  destruct (environ !! "DISCORD_GUILD_ID") as [raw|]; [|done].
  destruct (int raw) as [gid|] eqn:Hint; [|done].
  destruct (environ !! "SPREADSHEET_ID") as [sid|]; [|done].
  destruct (environ !! "GOOGLE_CREDENTIALS_JSON") as [b64|]; [|done].
  intros [= <-]. simpl. repeat split; eauto.
Qed.

Lemma load_config_fields_witness :
  load_config int_77 environ_ok = inr config_ok ∧
  environ_ok !! "DISCORD_TOKEN" = Some (TOKEN config_ok) ∧
  (∃ raw, environ_ok !! "DISCORD_GUILD_ID" = Some raw ∧
          int_77 raw = Some (GUILD_ID config_ok)) ∧
  environ_ok !! "SPREADSHEET_ID" = Some (SPREADSHEET_ID config_ok) ∧
  environ_ok !! "GOOGLE_CREDENTIALS_JSON" = Some (json_b64 config_ok) ∧
  SHEET_NAME config_ok = default "Discordリスト" (environ_ok !! "SHEET_NAME") ∧
  LOG_FILE config_ok =
    default "bot_execution_log.json" (environ_ok !! "LOG_FILE").
Proof.
  assert (load_config int_77 environ_ok = inr config_ok) as H
    by (vm_compute; reflexivity).
  split; [exact H|].
  exact (load_config_fields int_77 environ_ok config_ok H).
Defined.




